(** * Translate-mod: a shallow embedding of [translate.py]

    The script extracts comments and quoted strings holding Chinese or
    Japanese text from Lua files, translates every distinct fragment
    through an external backend, and writes the fragments back.  This file
    embeds the parts of the script that decide its behaviour -- the regular
    expressions, the string helpers, the translation cache with its
    aliasing, the retry loops -- and proves the properties of the
    specification against them.

    Python [str] values are sequences of Unicode code points and are
    modelled as [list Z].  The dictionary [translations_cache] is a
    [gmap]; module-level state is gathered in the record [world] and
    threaded explicitly. *)

From Stdlib Require Import ZArith List Bool Lia String Ascii.
From stdpp Require Import base option list gmap.

Local Open Scope Z_scope.

(** ** Strings *)

Abbreviation str := (list Z).

Definition cp (a : ascii) : Z := Z.of_N (N_of_ascii a).

(** [py "abc"] is the Python string with the same (ASCII) characters. *)
Definition py (s : string) : str := map cp (list_ascii_of_string s).

Definition DQUOTE : Z := 34.
Definition SQUOTE : Z := 39.
Definition BACKSLASH : Z := 92.
Definition NEWLINE : Z := 10.
Definition TAB : Z := 9.

Definition in_range (lo hi c : Z) : bool := (lo <=? c) && (c <=? hi).
Definition is_chr (x c : Z) : bool := c =? x.
Definition one_of (cs : str) (c : Z) : bool := existsb (Z.eqb c) cs.
Definition none_of (cs : str) (c : Z) : bool := negb (one_of cs c).

(** The tables of the Unicode database that the script reaches through
    [re] and [str]: they are not part of the repository, so the model
    takes them as a parameter.
    - [is_decimal]: the class [\d] of a [str] pattern (category Nd);
    - [is_space]: [str.isspace], the characters removed by [strip()];
    - [to_title]: the full title-case mapping of one code point;
    - [to_lower s i]: the full lower-case mapping of the code point at
      index [i] of [s] (the string is needed for the final-sigma rule). *)
Record Unicode := {
  is_decimal : Z -> bool;
  is_space : Z -> bool;
  to_title : Z -> str;
  to_lower : str -> nat -> str
}.

(** ** [str] methods *)

Fixpoint drop_while (p : Z -> bool) (s : str) : str :=
  match s with
  | [] => []
  | c :: s' => if p c then drop_while p s' else s
  end.

(** [s.lstrip(chars)] and [s.rstrip(chars)], with the set of characters
    given as a predicate. *)
Definition lstrip (p : Z -> bool) (s : str) : str := drop_while p s.
Definition rstrip (p : Z -> bool) (s : str) : str :=
  rev (drop_while p (rev s)).
Definition strip (p : Z -> bool) (s : str) : str := rstrip p (lstrip p s).

Fixpoint starts_with (old s : str) : bool :=
  match old, s with
  | [], _ => true
  | _ :: _, [] => false
  | a :: old', c :: s' => (a =? c) && starts_with old' s'
  end.

(** [s.replace(old, new)]: the occurrences of [old] are taken leftmost
    first and do not overlap.  [skip] counts the characters of an
    occurrence that are still to be passed over. *)
Fixpoint replace_from (old new : str) (skip : nat) (s : str) : str :=
  match s with
  | [] => []
  | c :: s' =>
      match skip with
      | S n => replace_from old new n s'
      | O =>
          if starts_with old s
          then new ++ replace_from old new (Nat.pred (length old)) s'
          else c :: replace_from old new O s'
      end
  end.

(** With an empty [old] Python puts [new] before every character and at
    the end. *)
Definition replace (old new s : str) : str :=
  match old with
  | [] => concat (map (fun c => new ++ [c]) s) ++ new
  | _ :: _ => replace_from old new O s
  end.

(** [s.capitalize()]: first character in title case, the others in lower
    case. *)
Definition capitalize (U : Unicode) (s : str) : str :=
  match s with
  | [] => []
  | c :: _ => to_title U c ++ concat (map (to_lower U s) (seq 1 (Nat.pred (length s))))
  end.

(** Lexicographic order on code points, the order of [list.sort] on
    [str] values. *)
Fixpoint str_leb (a b : str) : bool :=
  match a, b with
  | [], _ => true
  | _ :: _, [] => false
  | x :: a', y :: b' => (x <? y) || ((x =? y) && str_leb a' b')
  end.

Fixpoint insert_sorted (x : str) (l : list str) : list str :=
  match l with
  | [] => [x]
  | y :: l' => if str_leb x y then x :: l else y :: insert_sorted x l'
  end.

Definition sort (l : list str) : list str := foldr insert_sorted [] l.

(** ** Regular expressions

    The fragment of [re] the script uses, with the backtracking semantics
    of the library: greedy repetition, left-to-right search, one capturing
    group, and a negative lookbehind of one character. *)

Inductive re :=
| Cls (p : Z -> bool)        (* one character of a class *)
| Seq (a b : re)
| Opt (a : re)               (* a?  *)
| Star (a : re)              (* a*  *)
| Grp (a : re)               (* (a) *)
| NotBehind (p : Z -> bool). (* (?<!c) *)

Definition Plus (a : re) : re := Seq a (Star a).
Definition Chr (c : Z) : re := Cls (is_chr c).
Definition Lit (s : str) (k : re) : re := foldr (fun c r => Seq (Chr c) r) k s.

(** A position in the subject: the character before it, the text after
    it, and the text of group 1 so far. *)
Record mstate := { m_prev : option Z; m_rest : str; m_grp : option str }.

Definition advance (c : Z) (s : str) (st : mstate) : mstate :=
  {| m_prev := Some c; m_rest := s; m_grp := m_grp st |}.

Definition capture (st st1 : mstate) : mstate :=
  {| m_prev := m_prev st1; m_rest := m_rest st1;
     m_grp := Some (take (length (m_rest st) - length (m_rest st1)) (m_rest st)) |}.

(** The iterations of [a*]: [ma] matches one [a]; an iteration has to
    consume something, and [fuel] bounds their number by the length of the
    subject. *)
Fixpoint star_loop (ma : mstate -> (mstate -> option mstate) -> option mstate)
    (k : mstate -> option mstate) (fuel : nat) (st : mstate) : option mstate :=
  match fuel with
  | O => k st
  | S fuel' =>
      match ma st (fun st1 =>
              if (length (m_rest st1) <? length (m_rest st))%nat
              then star_loop ma k fuel' st1 else None) with
      | Some x => Some x
      | None => k st
      end
  end.

(** [rmatch r st k] matches [r] at [st] and hands every way of doing so,
    in the order of preference of a backtracking matcher, to the
    continuation [k] until one succeeds. *)
Fixpoint rmatch (r : re) (st : mstate) (k : mstate -> option mstate)
  : option mstate :=
  match r with
  | Cls p =>
      match m_rest st with
      | c :: s => if p c then k (advance c s st) else None
      | [] => None
      end
  | Seq a b => rmatch a st (fun st1 => rmatch b st1 k)
  | Opt a =>
      match rmatch a st k with
      | Some x => Some x
      | None => k st
      end
  | Star a => star_loop (rmatch a) k (length (m_rest st)) st
  | Grp a => rmatch a st (fun st1 => k (capture st st1))
  | NotBehind p =>
      match m_prev st with
      | Some c => if p c then None else k st
      | None => k st
      end
  end.

(** A match at one position: its length and what [findall] yields for it
    (group 1 when the pattern has one, the whole match otherwise). *)
Definition match_at (r : re) (prev : option Z) (s : str) : option (nat * str) :=
  match rmatch r {| m_prev := prev; m_rest := s; m_grp := None |} Some with
  | Some st =>
      let n := (length s - length (m_rest st))%nat in
      Some (n, match m_grp st with Some g => g | None => take n s end)
  | None => None
  end.

(** [re.findall]: [skip] counts the characters of the last match still to
    be passed over.  None of the script's patterns matches the empty
    string. *)
Fixpoint findall_from (r : re) (skip : nat) (prev : option Z) (s : str)
  : list str :=
  match s with
  | [] => []
  | c :: s' =>
      match skip with
      | S n => findall_from r n (Some c) s'
      | O =>
          match match_at r prev s with
          | Some (n, x) => x :: findall_from r (Nat.pred n) (Some c) s'
          | None => findall_from r O (Some c) s'
          end
      end
  end.

Definition re_findall (r : re) (s : str) : list str := findall_from r O None s.

(** [re.search]: what the leftmost match yields, if there is one. *)
Fixpoint search_from (r : re) (prev : option Z) (s : str) : option str :=
  match match_at r prev s with
  | Some (_, x) => Some x
  | None =>
      match s with
      | [] => None
      | c :: s' => search_from r (Some c) s'
      end
  end.

Definition re_search (r : re) (s : str) : option str := search_from r None s.

(** [re.sub] with a replacement that has no group reference. *)
Fixpoint sub_from (r : re) (repl : str) (skip : nat) (prev : option Z) (s : str)
  : str :=
  match s with
  | [] => []
  | c :: s' =>
      match skip with
      | S n => sub_from r repl n (Some c) s'
      | O =>
          match match_at r prev s with
          | Some (S n, _) => repl ++ sub_from r repl n (Some c) s'
          | Some (O, _) => repl ++ c :: sub_from r repl O (Some c) s'
          | None => c :: sub_from r repl O (Some c) s'
          end
      end
  end.

Definition re_sub (r : re) (repl s : str) : str := sub_from r repl O None s.

(** ** Program state, results and effects *)

(** A record of [translations_cache]: a dictionary with up to four
    keys. *)
Record entry := {
  Translated_Text : option str;
  Is_Comment : option str;
  Is_Quotes : option str;
  Found_In : option (list str)
}.

Definition empty_dict : entry :=
  {| Translated_Text := None; Is_Comment := None; Is_Quotes := None;
     Found_In := None |}.

(** Truth value of a dictionary: it has a key. *)
Definition dict_truthy (e : entry) : bool :=
  match Translated_Text e, Is_Comment e, Is_Quotes e, Found_In e with
  | None, None, None, None => false
  | _, _, _, _ => true
  end.

(** Truth value of [d.get(key)] for a [str] value. *)
Definition str_truthy (v : option str) : bool :=
  match v with
  | Some (_ :: _) => true
  | _ => false
  end.

Definition set_Is_Comment (v : str) (e : entry) : entry :=
  {| Translated_Text := Translated_Text e; Is_Comment := Some v;
     Is_Quotes := Is_Quotes e; Found_In := Found_In e |}.
Definition set_Is_Quotes (v : str) (e : entry) : entry :=
  {| Translated_Text := Translated_Text e; Is_Comment := Is_Comment e;
     Is_Quotes := Some v; Found_In := Found_In e |}.
Definition set_Found_In (v : list str) (e : entry) : entry :=
  {| Translated_Text := Translated_Text e; Is_Comment := Is_Comment e;
     Is_Quotes := Is_Quotes e; Found_In := Some v |}.
Definition set_Translated_Text (v : str) (e : entry) : entry :=
  {| Translated_Text := Some v; Is_Comment := Is_Comment e;
     Is_Quotes := Is_Quotes e; Found_In := Found_In e |}.

(** The messages handed to [logging.error]. *)
Inductive log_msg :=
| CountMismatch (original translated : str)
| SpecifierMismatch (position : nat) (orig trans : str)
| NoModFolder
| ErrorTranslating (text : str)
| FailedToTranslate (text : str) (retries : nat)
| ErrorProcessingFile (file_path : str)
| HttpErrorWhileSaving (status : Z)
| FailedToOpenSheet
| FailedToSave
| FailedLocalBackup.

(** Exceptions below [Exception]; [SystemExit] is not one of them and is
    the separate result [Exit]. *)
Inductive exn :=
| HttpError (status : Z)
| OtherError.

Inductive result (A : Type) :=
| Return (a : A)
| Raise (e : exn)
| Exit (m : log_msg).
Arguments Return {A} a.
Arguments Raise {A} e.
Arguments Exit {A} m.

(** The module-level state, and what the run has done to the outside:
    [requests] lists the texts passed to [translator.translate], [slept]
    the arguments of [time.sleep]. *)
Record world := {
  translations_cache : gmap str entry;
  japanese_skip : list str;
  error_log : list log_msg;
  requests : list str;
  slept : list Z
}.

Definition set_cache (c : gmap str entry) (w : world) : world :=
  {| translations_cache := c; japanese_skip := japanese_skip w;
     error_log := error_log w; requests := requests w; slept := slept w |}.
Definition logging_error (m : log_msg) (w : world) : world :=
  {| translations_cache := translations_cache w; japanese_skip := japanese_skip w;
     error_log := error_log w ++ [m]; requests := requests w; slept := slept w |}.
Definition skip_append (t : str) (w : world) : world :=
  {| translations_cache := translations_cache w;
     japanese_skip := japanese_skip w ++ [t];
     error_log := error_log w; requests := requests w; slept := slept w |}.
Definition request (t : str) (w : world) : world :=
  {| translations_cache := translations_cache w; japanese_skip := japanese_skip w;
     error_log := error_log w; requests := requests w ++ [t]; slept := slept w |}.
Definition time_sleep (n : Z) (w : world) : world :=
  {| translations_cache := translations_cache w; japanese_skip := japanese_skip w;
     error_log := error_log w; requests := requests w; slept := slept w ++ [n] |}.

(** The translation backend: what the [n]-th call of the run answers.
    [Fails] is any exception of [translator.translate] or of reading its
    result. *)
Inductive reply :=
| Reply (text : str)
| Fails.

Definition translator := nat -> str -> reply.

(** ** [escape_quotes] *)

(** The pattern [(?<!\\)q] for a quote character [q]. *)
Definition unescaped (q : Z) : re := Seq (NotBehind (is_chr BACKSLASH)) (Chr q).

Definition escape_quotes (text : str) : str :=
  let text := re_sub (unescaped DQUOTE) [BACKSLASH; DQUOTE] text in
  let text := re_sub (unescaped SQUOTE) [BACKSLASH; SQUOTE] text in
  text.

(** ** [get_path_start_from_mod_folder] *)

Definition translated_en : str := py "_translated_en".

(** The pattern of the mod folder: a backslash, and in group 1 a run
    [[^\n\\]+], the marker [_translated_en], a backslash and the rest of
    the line. *)
Definition mod_folder_pattern : re :=
  Seq (Chr BACKSLASH)
      (Grp (Seq (Plus (Cls (none_of [NEWLINE; BACKSLASH])))
                (Lit translated_en
                     (Seq (Chr BACKSLASH) (Star (Cls (none_of [NEWLINE]))))))).

Definition get_path_start_from_mod_folder (full_path : str) (w : world)
  : result str * world :=
  match re_search mod_folder_pattern full_path with
  | Some path =>
      (Return (replace (translated_en ++ [BACKSLASH]) [BACKSLASH] path), w)
  | None => (Exit NoModFolder, logging_error NoModFolder w)
  end.

(** The text around which the script is built: Hiragana and Katakana, and
    the CJK unified ideographs. *)
Definition is_kana (c : Z) : bool := in_range 0x3040 0x30FF c.
Definition is_cjk (c : Z) : bool := in_range 0x3040 0x30FF c || in_range 0x4E00 0x9FFF c.

(** [[\u3040-\u30FF]+] and [[\u3040-\u30FF\u4E00-\u9FFF]+]. *)
Definition hiragana_katakana_pattern : re := Plus (Cls is_kana).
Definition japanese_mandarin_pattern : re := Plus (Cls is_cjk).

Section WithUnicode.

Context (U : Unicode).

(** ** [check_format_specifiers] *)

(** [%(?:\d+)?(?:\.\d+)?[diouxXeEfFgGcrs%]] *)
Definition specifier_pattern : re :=
  Seq (Chr (cp "%"))
      (Seq (Opt (Plus (Cls (is_decimal U))))
           (Seq (Opt (Seq (Chr (cp ".")) (Plus (Cls (is_decimal U)))))
                (Cls (one_of (py "diouxXeEfFgGcrs%"))))).

(** The loop over [enumerate(zip(original_specifiers,
    translated_specifiers))]; [i] is the index of the heads. *)
Fixpoint compare_specifiers (i : nat) (os ts : list str) : option log_msg :=
  match os, ts with
  | orig :: os', trans :: ts' =>
      if decide (orig = trans) then compare_specifiers (S i) os' ts'
      else Some (SpecifierMismatch (i + 1) orig trans)
  | _, _ => None
  end.

Definition check_format_specifiers (original translated : str) (w : world)
  : result unit * world :=
  let original_specifiers := re_findall specifier_pattern original in
  let translated_specifiers := re_findall specifier_pattern translated in
  if (0 <? length original_specifiers)%nat
     && negb (length original_specifiers =? length translated_specifiers)%nat
  then
    let error_msg := CountMismatch original translated in
    (Exit error_msg, logging_error error_msg w)
  else
    match compare_specifiers 0 original_specifiers translated_specifiers with
    | Some error_msg => (Exit error_msg, logging_error error_msg w)
    | None => (Return tt, w)
    end.

(** ** [translate_text] *)

(** The check mark written into the role columns. *)
Definition CHECK_MARK : str := [0x2714].

(** [translated_entry] is the dictionary stored under [text] when there
    is a non-empty one, and a new dictionary otherwise.  In the first case
    the object is shared with the cache: what the function writes into it
    is in the cache whether or not the function stores it again. *)
Definition commit (aliased : bool) (text : str) (e : entry) (w : world) : world :=
  if aliased then set_cache (<[text := e]> (translations_cache w)) w else w.

Definition store (text : str) (e : entry) (w : world) : world :=
  set_cache (<[text := e]> (translations_cache w)) w.

(** The body of the [try] statement of one attempt. *)
Definition attempt_body (tr : translator) (text : str) (w : world)
  : result str * world :=
  let answer := tr (length (requests w)) text in
  let w := request text w in
  match answer with
  | Fails => (Raise OtherError, w)
  | Reply translated =>
      let translated_text := replace (py "\ n") (py "\n") (capitalize U translated) in
      match check_format_specifiers text translated_text w with
      | (Return _, w) => (Return translated_text, w)
      | (Raise e, w) => (Raise e, w)
      | (Exit m, w) => (Exit m, w)
      end
  end.

(** The loop [for attempt in range(retries)], entered at [attempt] with
    [remaining] iterations to go.  When the range is empty the function
    falls off its end and returns [None]. *)
Fixpoint translate_attempts (tr : translator) (text : str) (translated_entry : entry)
    (aliased : bool) (retries attempt remaining : nat) (w : world)
  : result (option str) * world :=
  match remaining with
  | O => (Return None, commit aliased text translated_entry w)
  | S remaining' =>
      match attempt_body tr text w with
      | (Return translated_text, w) =>
          (Return (Some translated_text),
           store text (set_Translated_Text translated_text translated_entry) w)
      | (Exit m, w) => (Exit m, commit aliased text translated_entry w)
      | (Raise _, w) =>
          let w := logging_error (ErrorTranslating text) w in
          if (attempt <? retries - 1)%nat then
            translate_attempts tr text translated_entry aliased retries
              (S attempt) remaining' (time_sleep 1 w)
          else
            (Return (Some text),
             commit aliased text translated_entry
               (logging_error (FailedToTranslate text retries) w))
      end
  end.

Definition translate_text (text : str) (tr : translator) (isComment : bool)
    (file_path : str) (retries : nat) (w : world)
  : result (option str) * world :=
  let stored := translations_cache w !! text in
  let aliased := match stored with Some e => dict_truthy e | None => false end in
  let translated_entry :=
    match stored with
    | Some e => if dict_truthy e then e else empty_dict
    | None => empty_dict
    end in
  let translated_entry :=
    if isComment then set_Is_Comment CHECK_MARK translated_entry
    else set_Is_Quotes CHECK_MARK translated_entry in
  let translated_entry :=
    match Found_In translated_entry with
    | None => set_Found_In [] translated_entry
    | Some _ => translated_entry
    end in
  match get_path_start_from_mod_folder file_path w with
  | (Return relative_path, w) =>
      let found := default [] (Found_In translated_entry) in
      let translated_entry :=
        if bool_decide (relative_path ∈ found) then translated_entry
        else set_Found_In (sort (found ++ [relative_path])) translated_entry in
      if str_truthy (Translated_Text translated_entry) then
        let cached := default [] (Translated_Text translated_entry) in
        match check_format_specifiers text cached w with
        | (Return _, w) => (Return (Some cached), store text translated_entry w)
        | (Raise e, w) => (Raise e, commit aliased text translated_entry w)
        | (Exit m, w) => (Exit m, commit aliased text translated_entry w)
        end
      else
        match re_search hiragana_katakana_pattern text with
        | Some _ =>
            (Return (Some text),
             skip_append text
               (store text (set_Translated_Text text translated_entry) w))
        | None =>
            translate_attempts tr text translated_entry aliased retries 0 retries w
        end
  | (Raise e, w) => (Raise e, commit aliased text translated_entry w)
  | (Exit m, w) => (Exit m, commit aliased text translated_entry w)
  end.

(** ** [translate_file] *)

Definition DASH : Z := cp "-".

(** The comments of a buffer: two dashes, a run [[^-\n]*], and groups
    made of one dash and a run [[^-\n]+]. *)
Definition comment_pattern : re :=
  Lit [DASH; DASH]
      (Seq (Star (Cls (none_of [DASH; NEWLINE])))
           (Star (Seq (Chr DASH) (Plus (Cls (none_of [DASH; NEWLINE])))))).

(** The strings between two quote characters [q] that no backslash
    precedes; group 1 is a run [[^q\n\\]*] followed by groups made of an
    escaped character and a run [[^q\n\\]*]. *)
Definition quoted_pattern (q : Z) : re :=
  Seq (NotBehind (is_chr BACKSLASH))
      (Seq (Chr q)
           (Seq (Grp (Seq (Star (Cls (none_of [q; NEWLINE; BACKSLASH])))
                          (Star (Seq (Chr BACKSLASH)
                                     (Seq (Cls (none_of [NEWLINE]))
                                          (Star (Cls (none_of [q; NEWLINE; BACKSLASH]))))))))
                (Chr q))).

(** The characters of [lstrip("-[= .\t")] and of [rstrip("]-= .\t")]. *)
Definition leading_decoration : Z -> bool := one_of (py "-[= ." ++ [TAB]).
Definition trailing_decoration : Z -> bool := one_of (py "]-= ." ++ [TAB]).

(** The test that opens each of the three loops: the span holds Chinese
    or Japanese text and is not made of spaces only. *)
Definition needs_translation (span : str) : bool :=
  (0 <? length (re_findall japanese_mandarin_pattern span))%nat
  && (0 <? length (strip (is_space U) span))%nat.

(** The body of the loop over the comments. *)
Definition translate_comment (tr : translator) (file_path : str) (comment : str)
    (translated_content : str) (w : world) : result str * world :=
  if needs_translation comment then
    let leading :=
      take (length comment - length (lstrip leading_decoration comment)) comment in
    let trailing := drop (length (rstrip trailing_decoration comment)) comment in
    let trimmed_comment :=
      rstrip trailing_decoration (lstrip leading_decoration comment) in
    match translate_text trimmed_comment tr true file_path 100 w with
    | (Return (Some translated_comment), w) =>
        let translated_comment := leading ++ translated_comment ++ trailing in
        (Return (replace comment translated_comment translated_content), w)
    | (Return None, w) => (Raise OtherError, w)
    | (Raise e, w) => (Raise e, w)
    | (Exit m, w) => (Exit m, w)
    end
  else (Return translated_content, w).

(** The body of the loops over the quoted strings; [q] is the quote
    character of the span in the buffer, the span written back is always
    double-quoted. *)
Definition translate_quoted (q : Z) (tr : translator) (file_path : str)
    (string : str) (translated_content : str) (w : world) : result str * world :=
  if needs_translation string then
    let leading :=
      take (length string - length (lstrip (is_space U) string)) string in
    let trailing := drop (length (rstrip (is_space U) string)) string in
    match translate_text (strip (is_space U) string) tr false file_path 100 w with
    | (Return (Some translated), w) =>
        let translated_string := escape_quotes translated in
        let translated_string := leading ++ translated_string ++ trailing in
        (Return (replace ([q] ++ string ++ [q])
                         ([DQUOTE] ++ translated_string ++ [DQUOTE])
                         translated_content), w)
    | (Return None, w) => (Raise OtherError, w)
    | (Raise e, w) => (Raise e, w)
    | (Exit m, w) => (Exit m, w)
    end
  else (Return translated_content, w).

(** A [for] loop whose body rewrites the buffer. *)
Fixpoint for_each (body : str -> str -> world -> result str * world)
    (spans : list str) (translated_content : str) (w : world)
  : result str * world :=
  match spans with
  | [] => (Return translated_content, w)
  | span :: spans' =>
      match body span translated_content w with
      | (Return translated_content, w) => for_each body spans' translated_content w
      | other => other
      end
  end.

(** The three phases; each takes its spans from the buffer the phase
    before it has left. *)
Definition translate_content (tr : translator) (file_path : str)
    (original_content : str) (w : world) : result str * world :=
  let translated_content := original_content in
  let comments := re_findall comment_pattern translated_content in
  match for_each (translate_comment tr file_path) comments translated_content w with
  | (Return translated_content, w) =>
      let double_quoted_strings :=
        re_findall (quoted_pattern DQUOTE) translated_content in
      match for_each (translate_quoted DQUOTE tr file_path)
                     double_quoted_strings translated_content w with
      | (Return translated_content, w) =>
          let single_quoted_strings :=
            re_findall (quoted_pattern SQUOTE) translated_content in
          for_each (translate_quoted SQUOTE tr file_path)
                   single_quoted_strings translated_content w
      | other => other
      end
  | other => other
  end.

(** [format_lua_content]: the formatter is an external program; [stylua]
    is [None] for every way it can fail. *)
Definition format_lua_content (stylua : str -> option str) (content : str) : str :=
  match stylua content with
  | Some formatted_content => formatted_content
  | None => content
  end.

(** What a call of [translate_file] does to the file. *)
Inductive file_result :=
| Written (content : str)
| NoChanges
| ProcessingError
| Aborted (m : log_msg).

(** [original_content] is the text read from the file: the model starts
    after the [open] and [read] of the source have succeeded. *)
Definition translate_file (stylua : str -> option str) (original_content : str)
    (file_path : str) (tr : translator) (w : world) : file_result * world :=
  match translate_content tr file_path original_content w with
  | (Return translated_content, w) =>
      if decide (translated_content = original_content) then (NoChanges, w)
      else (Written (format_lua_content stylua translated_content), w)
  | (Raise _, w) =>
      (ProcessingError, logging_error (ErrorProcessingFile file_path) w)
  | (Exit m, w) => (Aborted m, w)
  end.

(** The loop of [translate_folder] over the files that are not ignored,
    each given with its content; [SystemExit] ends the run. *)
Fixpoint translate_files (stylua : str -> option str) (tr : translator)
    (lua_files : list (str * str)) (w : world)
  : list file_result * world :=
  match lua_files with
  | [] => ([], w)
  | (file_path, content) :: lua_files' =>
      match translate_file stylua content file_path tr w with
      | (Aborted m, w) => ([Aborted m], w)
      | (r, w) =>
          let '(rs, w) := translate_files stylua tr lua_files' w in (r :: rs, w)
      end
  end.

End WithUnicode.

(** ** [save_translations_to_google_sheets] *)

(** The spreadsheet service and the local file system as the save
    operation meets them; [None] stands for a call that returns and
    [Some e] for one that raises [e].
    - [authorize]: [get_gspread_client()];
    - [open_sheet n]: the [n]-th evaluation of [client.open(...).sheet1];
    - [update_sheet]: [sheet.clear()] and [sheet.update(...)];
    - [write_backup]: opening and writing [dictionary_backup.json]. *)
Record store_backend := {
  authorize : option exn;
  open_sheet : nat -> option exn;
  update_sheet : option exn;
  write_backup : option exn
}.

(** One row of the first table.  The rows follow the order of the
    dictionary, which the map does not keep; nothing below depends on
    it. *)
Record row := {
  Original_Text : str;
  Translated : str;
  Comment_Column : str;
  Quotes_Column : str;
  Found_In_Column : str
}.

(** [sep.join(l)] *)
Fixpoint join (sep : str) (l : list str) : str :=
  match l with
  | [] => []
  | [x] => x
  | x :: l' => x ++ sep ++ join sep l'
  end.

(** The dictionary built for one item of the cache; the subscript
    [value["Translated_Text"]] raises [KeyError] when the key is
    missing. *)
Definition row_of (item : str * entry) : option row :=
  let '(key, value) := item in
  match Translated_Text value with
  | Some t =>
      Some {| Original_Text := key; Translated := t;
              Comment_Column := default [] (Is_Comment value);
              Quotes_Column := default [] (Is_Quotes value);
              Found_In_Column := join [NEWLINE] (default [] (Found_In value)) |}
  | None => None
  end.

Fixpoint rows_of (items : list (str * entry)) : option (list row) :=
  match items with
  | [] => Some []
  | item :: items' =>
      match row_of item, rows_of items' with
      | Some r, Some rs => Some (r :: rs)
      | _, _ => None
      end
  end.

(** Where the dictionary has gone when the operation ends. *)
Inductive persisted :=
| ToSheet (rows : list row)
| ToBackup (snapshot : gmap str entry)
| Nowhere.

Definition save_to_local_backup (B : store_backend) (w : world)
  : persisted * world :=
  match write_backup B with
  | None => (ToBackup (translations_cache w), w)
  | Some _ => (Nowhere, logging_error FailedLocalBackup w)
  end.

(** The loop [for attempt in range(retries)] that opens the sheet; the
    result tells whether [sheet] has been assigned. *)
Fixpoint open_attempts (B : store_backend) (attempt remaining : nat) (w : world)
  : result bool * world :=
  match remaining with
  | O => (Return false, w)
  | S remaining' =>
      match open_sheet B attempt with
      | None => (Return true, w)
      | Some (HttpError status) =>
          if one_of [500; 503] status then
            open_attempts B (S attempt) remaining'
              (time_sleep (2 ^ Z.of_nat attempt) w)
          else (Raise (HttpError status),
                logging_error (HttpErrorWhileSaving status) w)
      | Some e => (Raise e, w)
      end
  end.

Definition save_translations_to_google_sheets (B : store_backend) (w : world)
  : result persisted * world :=
  match authorize B with
  | Some e => (Raise e, w)
  | None =>
      let retries := 3%nat in
      match open_attempts B 0 retries w with
      | (Return false, w) =>
          let w := logging_error FailedToOpenSheet w in
          let '(p, w) := save_to_local_backup B w in (Return p, w)
      | (Return true, w) =>
          match rows_of (map_to_list (translations_cache w)), update_sheet B with
          | Some rows, None => (Return (ToSheet rows), w)
          | _, _ =>
              let w := logging_error FailedToSave w in
              let '(p, w) := save_to_local_backup B w in (Return p, w)
          end
      | (Raise e, w) => (Raise e, w)
      | (Exit m, w) => (Exit m, w)
      end
  end.

(** ** A concrete instance of the tables

    The restriction of the Unicode tables to ASCII; it agrees with Python
    on every text made of ASCII characters, and is used for the worked
    examples. *)

Definition ascii_to_title (c : Z) : str :=
  if in_range (cp "a") (cp "z") c then [c - 32] else [c].

Definition ascii_to_lower (s : str) (i : nat) : str :=
  match nth_error s i with
  | Some c => if in_range (cp "A") (cp "Z") c then [c + 32] else [c]
  | None => []
  end.

Definition ascii_tables : Unicode := {|
  is_decimal := in_range (cp "0") (cp "9");
  is_space := fun c => in_range 9 13 c || in_range 28 32 c;
  to_title := ascii_to_title;
  to_lower := ascii_to_lower
|}.

Definition empty_world : world :=
  {| translations_cache := ∅; japanese_skip := []; error_log := [];
     requests := []; slept := [] |}.

(** * Notions used by the statements and the proofs *)

(** ** Escaping *)

(** What [re.sub] does with the pattern [unescaped q]: a quote that no
    backslash precedes gets one. *)
Fixpoint escape_from (q : Z) (prev : option Z) (s : str) : str :=
  match s with
  | [] => []
  | c :: s' =>
      if is_chr q c && negb (bool_decide (prev = Some BACKSLASH))
      then BACKSLASH :: q :: escape_from q (Some c) s'
      else c :: escape_from q (Some c) s'
  end.

(** Every [q] of [s] stands after a backslash; [prev] is the character
    before [s]. *)
Fixpoint guarded (q : Z) (prev : option Z) (s : str) : Prop :=
  match s with
  | [] => True
  | c :: s' => (c = q -> prev = Some BACKSLASH) /\ guarded q (Some c) s'
  end.

(** ** Calls of [translate_text] *)

(** What a call for [text] may do to the requests and to the records of
    the other fragments: it adds requests for [text] only and leaves every
    other record alone. *)
Definition frame (text : str) (w w' : world) : Prop :=
  (exists k, requests w' = requests w ++ replicate k text) /\
  (forall t, t <> text -> translations_cache w' !! t = translations_cache w !! t).

(** The fragment has a record with a non-empty translation. *)
Definition resolved (w : world) (text cached : str) : Prop :=
  exists e, translations_cache w !! text = Some e /\
            Translated_Text e = Some cached /\ cached <> [].

(** Whether [translated_entry] is the object stored in the cache. *)
Definition aliased_in (w : world) (text : str) : bool :=
  match translations_cache w !! text with
  | Some e => dict_truthy e
  | None => false
  end.

(** [translated_entry] after the role flag has been set and the list of
    files initialised, and, when the path has been resolved to
    [relative_path], after the path has been added. *)
Definition sighting (w : world) (text : str) (isComment : bool)
    (relative_path : option str) : entry :=
  let e :=
    match translations_cache w !! text with
    | Some e => if dict_truthy e then e else empty_dict
    | None => empty_dict
    end in
  let e := if isComment then set_Is_Comment CHECK_MARK e
           else set_Is_Quotes CHECK_MARK e in
  let e := match Found_In e with
           | None => set_Found_In [] e
           | Some _ => e
           end in
  match relative_path with
  | None => e
  | Some rel =>
      if bool_decide (rel ∈ default [] (Found_In e)) then e
      else set_Found_In (sort (default [] (Found_In e) ++ [rel])) e
  end.

(** The path under the mod folder, when the file path has one. *)
Definition relative_path_of (path : str) : str :=
  replace (translated_en ++ [BACKSLASH]) [BACKSLASH] path.

(** No request for [t] is issued between [w] and [w']. *)
Definition quiet (t : str) (w w' : world) : Prop :=
  exists added, requests w' = requests w ++ added /\ t ∉ added.

(** A resolved fragment stays resolved and is not requested. *)
Definition keeps (t cached : str) (w w' : world) : Prop :=
  resolved w t cached -> quiet t w w' /\ resolved w' t cached.

(** ** The wording of the specification, where the code departs from it *)

(** The wording of the specification for the result of a translation:
    the first letter in upper case and no other letter altered. *)
Definition first_letter_capitalized (U : Unicode) (s : str) : str :=
  match s with
  | [] => []
  | c :: s' => to_title U c ++ s'
  end.

(** The decoration characters as the specification lists them, one set
    for both ends: dashes, brackets, equals signs, dots, tabs and
    spaces. *)
Definition decoration : Z -> bool := one_of (py "-[]= ." ++ [TAB]).

(** ** Stripped runs *)

(** The longest prefix of [s] made of characters of [p]: what [lstrip]
    removes. *)
Fixpoint take_while (p : Z -> bool) (s : str) : str :=
  match s with
  | [] => []
  | c :: s' => if p c then c :: take_while p s' else []
  end.

(** The longest suffix of [s] made of characters of [p]: what [rstrip]
    removes. *)
Definition take_while_end (p : Z -> bool) (s : str) : str :=
  rev (take_while p (rev s)).

(** ** Saving *)

(** The [n]-th attempt to open the sheet meets a server error, the kind
    the loop retries. *)
Definition transient (B : store_backend) (n : nat) : Prop :=
  exists status, open_sheet B n = Some (HttpError status) /\
                 (status = 500 \/ status = 503).

(** The sleeps of [k] retried attempts, from attempt number [attempt]. *)
Fixpoint backoff (attempt k : nat) (w : world) : world :=
  match k with
  | O => w
  | S k' => backoff (S attempt) k' (time_sleep (2 ^ Z.of_nat attempt) w)
  end.

(** ** Data of the worked examples *)

(** A file of a translated copy of a mod. *)
Definition lua_path : str :=
  py "D:\mods\workshop-1_translated_en\scripts\main.lua".

(** Two ideographs, and two kana. *)
Definition ni_hao : str := [0x4F60; 0x597D].
Definition kon : str := [0x3053; 0x3093].

(** A record as the dictionary sheet yields it. *)
Definition greeting_entry : entry :=
  {| Translated_Text := Some (py "Hello %s"); Is_Comment := Some [];
     Is_Quotes := Some CHECK_MARK; Found_In := Some [] |}.

Definition greeting : str := ni_hao ++ py " %s".

Definition greeting_world : world :=
  set_cache {[ greeting := greeting_entry ]} empty_world.

(** Backends that always fail, and that always give the same answer. *)
Definition failing : translator := fun _ _ => Fails.
Definition answering (t : str) : translator := fun _ _ => Reply t.

(** Backends of the store for the worked examples: every call succeeds;
    the sheet is not found; the service is down for good. *)
Definition store_ok : store_backend :=
  {| authorize := None; open_sheet := fun _ => None;
     update_sheet := None; write_backup := None |}.
Definition store_not_found : store_backend :=
  {| authorize := None; open_sheet := fun _ => Some (HttpError 404);
     update_sheet := None; write_backup := None |}.
Definition store_unavailable : store_backend :=
  {| authorize := None; open_sheet := fun _ => Some (HttpError 503);
     update_sheet := None; write_backup := None |}.

(** ** Attempts that fail *)

(** The world after [k] attempts for [text] that the backend has failed
    and the loop has retried: a request, a logged error and a sleep for
    each. *)
Fixpoint failed_attempts (text : str) (k : nat) (w : world) : world :=
  match k with
  | O => w
  | S k' =>
      failed_attempts text k'
        (time_sleep 1 (logging_error (ErrorTranslating text) (request text w)))
  end.

(** ** Records and their lists of files *)

(** A list of paths in the order of [list.sort]. *)
Fixpoint is_sorted (l : list str) : bool :=
  match l with
  | [] => true
  | a :: l' =>
      match l' with
      | [] => true
      | b :: _ => str_leb a b && is_sorted l'
      end
  end.

(** The list of files of the record a call for [text] works on: the one
    of the stored record, or the empty list of a new record. *)
Definition files_before (w : world) (text : str) : list str :=
  match translations_cache w !! text with
  | Some e => if dict_truthy e then default [] (Found_In e) else []
  | None => []
  end.

(** Every record has the key that the save operation reads without a
    default. *)
Definition has_translation_keys (c : gmap str entry) : Prop :=
  forall t e, c !! t = Some e -> is_Some (Translated_Text e).

(** The role flag that a call sets: the comment flag or the quotes
    flag. *)
Definition role_flag (isComment : bool) (e : entry) : option str :=
  if isComment then Is_Comment e else Is_Quotes e.

(** ** Matches lie in the subject *)

(** The text still to be read and the text of the group are made of
    characters of [s]. *)
Definition within (s : str) (st : mstate) : Prop :=
  m_rest st ⊆ s /\ forall g, m_grp st = Some g -> g ⊆ s.

(** The characters that are not backslashes. *)
Definition without_backslashes (s : str) : str :=
  List.filter (fun c => negb (c =? BACKSLASH)) s.

(** ** [load_translations_from_google_sheets] *)

(** [s.split(sep)] for a separator of one character: the pieces between
    the occurrences of [sep], empty pieces included. *)
Fixpoint split (sep : Z) (s : str) : list str :=
  match s with
  | [] => [[]]
  | c :: s' =>
      if c =? sep then [] :: split sep s'
      else
        match split sep s' with
        | piece :: pieces => (c :: piece) :: pieces
        | [] => [[c]]
        end
  end.

(** One record of [sheet.get_all_records()]: a dictionary whose keys are
    the headers of the sheet; a field is [None] when the sheet has no such
    column.  The cells are taken as text. *)
Record sheet_record := {
  get_Original_Text : option str;
  get_Translated_Text : option str;
  get_Is_Comment : option str;
  get_Is_Quotes : option str;
  get_Found_In : option str
}.

(** The list of files of a record: the cell split at the line breaks,
    and the empty list for a missing or empty cell. *)
Definition found_in_of_cell (cell : option str) : list str :=
  if str_truthy cell then split NEWLINE (default [] cell) else [].

(** One item of the dictionary comprehension; the four subscripts raise
    [KeyError] on a missing column. *)
Definition entry_of_record (r : sheet_record) : option (str * entry) :=
  match get_Original_Text r, get_Translated_Text r,
        get_Is_Comment r, get_Is_Quotes r with
  | Some key, Some translated, Some is_comment, Some is_quotes =>
      Some (key,
            {| Translated_Text := Some translated;
               Is_Comment := Some is_comment;
               Is_Quotes := Some is_quotes;
               Found_In := Some (found_in_of_cell (get_Found_In r)) |})
  | _, _, _, _ => None
  end.

Fixpoint entries_of (data : list sheet_record) : option (list (str * entry)) :=
  match data with
  | [] => Some []
  | r :: data' =>
      match entry_of_record r, entries_of data' with
      | Some item, Some items => Some (item :: items)
      | _, _ => None
      end
  end.

(** The dictionary that the comprehension builds: a later row replaces an
    earlier row of the same original text. *)
Definition dict_of (items : list (str * entry)) : gmap str entry :=
  foldl (fun c item => <[fst item := snd item]> c) ∅ items.

(** The message of a load that has failed; it goes to the log and to the
    console. *)
Inductive load_failure := FailedToLoad.

(** [data] is [None] when opening or reading the sheet raises.  The cache
    is assigned once the whole dictionary has been built. *)
Definition load_translations_from_google_sheets
    (data : option (list sheet_record)) (cache : gmap str entry)
  : gmap str entry * option load_failure :=
  match data with
  | Some rows =>
      match entries_of rows with
      | Some items => (dict_of items, None)
      | None => (cache, Some FailedToLoad)
      end
  | None => (cache, Some FailedToLoad)
  end.

(** The record that the sheet hands back for a row that has been written
    to it as text. *)
Definition record_of_row (r : row) : sheet_record :=
  {| get_Original_Text := Some (Original_Text r);
     get_Translated_Text := Some (Translated r);
     get_Is_Comment := Some (Comment_Column r);
     get_Is_Quotes := Some (Quotes_Column r);
     get_Found_In := Some (Found_In_Column r) |}.

(** A path that can stand in a cell of paths: not empty, and without
    line break. *)
Definition is_path (p : str) : bool :=
  (0 <? length p)%nat && negb (existsb (is_chr NEWLINE) p).

(** ** Folders of translated copies *)

(** The characters of the class [[^\n\\]] of the mod folder pattern, and
    of its final [.]. *)
Definition in_segment : Z -> bool := none_of [NEWLINE; BACKSLASH].
Definition in_line : Z -> bool := none_of [NEWLINE].

(** The segment of a path is the name of a translated copy: the marker
    [_translated_en] after at least one character. *)
Definition names_translated_copy (seg : str) : bool :=
  (length translated_en <? length seg)%nat
  && bool_decide (drop (length seg - length translated_en) seg = translated_en).

(** A path given by its segments: [first] and then each segment of
    [segs] after a backslash. *)
Definition path_of (first : str) (segs : list str) : str :=
  first ++ concat (map (cons BACKSLASH) segs).

(** * Properties *)

(** ** Quote escaping *)

Lemma match_at_unescaped q prev c s :
  match_at (unescaped q) prev (c :: s) =
  if is_chr q c && negb (bool_decide (prev = Some BACKSLASH))
  then Some (1%nat, [c]) else None.
Proof.
  unfold match_at, unescaped, Chr. cbn [rmatch m_prev m_rest].
  assert (Hlen : (length (c :: s) - length s = 1)%nat) by (simpl; lia).
  destruct prev as [x|]; cbn [is_chr].
  - unfold is_chr at 1. destruct (Z.eqb_spec x BACKSLASH) as [->|Hx].
    + rewrite bool_decide_eq_true_2 by done. by rewrite andb_false_r.
    + rewrite bool_decide_eq_false_2 by congruence. rewrite andb_true_r.
      destruct (is_chr q c); [|done]. cbn [advance m_rest m_grp]. by rewrite Hlen.
  - rewrite bool_decide_eq_false_2 by done. rewrite andb_true_r.
    destruct (is_chr q c); [|done]. cbn [advance m_rest m_grp]. by rewrite Hlen.
Qed.

Lemma sub_unescaped q prev s :
  sub_from (unescaped q) [BACKSLASH; q] 0 prev s = escape_from q prev s.
Proof.
  revert prev. induction s as [|c s IH]; intros prev; [done|].
  cbn [sub_from escape_from]. rewrite match_at_unescaped.
  destruct (is_chr q c && _) eqn:E.
  - apply andb_true_iff in E as [Hq _]. apply Z.eqb_eq in Hq. subst c.
    cbn. by rewrite IH.
  - by rewrite IH.
Qed.

Lemma escape_quotes_unfold s :
  escape_quotes s = escape_from SQUOTE None (escape_from DQUOTE None s).
Proof. unfold escape_quotes, re_sub. by rewrite !sub_unescaped. Qed.

Lemma escape_from_guarded_id q prev s :
  guarded q prev s -> escape_from q prev s = s.
Proof.
  revert prev. induction s as [|c s IH]; intros prev; [done|].
  intros [Hc Hs]. cbn [escape_from]. rewrite (IH _ Hs).
  unfold is_chr. destruct (Z.eqb_spec c q) as [E|E]; [|done].
  by rewrite (Hc E), bool_decide_eq_true_2.
Qed.

Lemma escape_from_guarded q prev s :
  q <> BACKSLASH -> guarded q prev (escape_from q prev s).
Proof.
  intros Hq. revert prev. induction s as [|c s IH]; intros prev; [done|].
  cbn [escape_from]. unfold is_chr at 1.
  destruct (Z.eqb_spec c q) as [->|E]; cbn [andb].
  - case_bool_decide as Hp; cbn [negb guarded].
    + split; [done|]. apply IH.
    + repeat split; done || apply IH.
  - cbn [guarded]. split; [done|]. apply IH.
Qed.

Lemma escape_from_keeps_guarded q1 q2 prev s :
  q1 <> BACKSLASH -> q1 <> q2 ->
  guarded q1 prev s -> guarded q1 prev (escape_from q2 prev s).
Proof.
  intros Hb Hq. revert prev. induction s as [|c s IH]; intros prev; [done|].
  intros [Hc Hs]. cbn [escape_from].
  destruct (is_chr q2 c && _) eqn:E; cbn [guarded].
  - apply andb_true_iff in E as [E _]. apply Z.eqb_eq in E. subst c.
    repeat split; done || by apply IH.
  - split; [done|]. by apply IH.
Qed.

(** C10. [escape_quotes] is idempotent: applying it to its own result
    changes nothing, since every quote of the result stands after a
    backslash. *)
Theorem escape_quotes_idempotent (s : str) :
  escape_quotes (escape_quotes s) = escape_quotes s.
Proof.
  rewrite (escape_quotes_unfold (escape_quotes s)).
  rewrite (escape_quotes_unfold s).
  set (t := escape_from DQUOTE None s).
  assert (Hd : guarded DQUOTE None (escape_from SQUOTE None t)).
  { apply escape_from_keeps_guarded; [done|done|].
    by apply escape_from_guarded. }
  rewrite (escape_from_guarded_id DQUOTE _ _ Hd).
  apply escape_from_guarded_id. by apply escape_from_guarded.
Qed.

(** ** Placeholder validation *)

Lemma compare_specifiers_same i (os : list str) :
  compare_specifiers i os os = None.
Proof.
  revert i. induction os as [|a os IH]; intros i; [done|].
  cbn [compare_specifiers]. by rewrite decide_True.
Qed.

Lemma compare_specifiers_first_difference k (os ts : list str) i a b :
  os !! i = Some a -> ts !! i = Some b -> a <> b ->
  (forall j, (j < i)%nat -> os !! j = ts !! j) ->
  compare_specifiers k os ts = Some (SpecifierMismatch (k + i + 1) a b).
Proof.
  revert k ts i. induction os as [|x os IH]; intros k ts i Ha Hb Hne Hlt.
  - by rewrite lookup_nil in Ha.
  - destruct ts as [|y ts]; [by rewrite lookup_nil in Hb|].
    cbn [compare_specifiers]. destruct i as [|i].
    + cbn in Ha, Hb. simplify_eq. rewrite decide_False by done.
      by rewrite Nat.add_0_r.
    + pose proof (Hlt 0%nat ltac:(lia)) as H0. cbn in H0. simplify_eq.
      rewrite decide_True by done.
      rewrite (IH (S k) ts i Ha Hb Hne).
      * do 2 f_equal. lia.
      * intros j Hj. apply (Hlt (S j)). lia.
Qed.

(** C2. [check_format_specifiers] on a pair (original, translated):
    with no placeholder in the original it returns, whatever the
    translation holds; with placeholders it ends the run when the two
    counts differ; with equal counts it ends the run at the first index
    where the two tokens differ, reported counting from 1; and it returns
    when the two sequences of tokens are equal.  Every failure is logged
    and raised as [SystemExit]. *)
Theorem check_format_specifiers_spec (U : Unicode) (original translated : str)
    (w : world) :
  let os := re_findall (specifier_pattern U) original in
  let ts := re_findall (specifier_pattern U) translated in
  (os = [] ->
   check_format_specifiers U original translated w = (Return tt, w)) /\
  (os <> [] -> length os <> length ts ->
   check_format_specifiers U original translated w =
   (Exit (CountMismatch original translated),
    logging_error (CountMismatch original translated) w)) /\
  (forall i a b,
     os <> [] -> length os = length ts ->
     os !! i = Some a -> ts !! i = Some b -> a <> b ->
     (forall j, (j < i)%nat -> os !! j = ts !! j) ->
     check_format_specifiers U original translated w =
     (Exit (SpecifierMismatch (i + 1) a b),
      logging_error (SpecifierMismatch (i + 1) a b) w)) /\
  (os <> [] -> os = ts ->
   check_format_specifiers U original translated w = (Return tt, w)).
Proof.
  intros os ts. unfold check_format_specifiers. fold os ts.
  repeat split.
  - intros ->. by destruct ts.
  - intros Hne Hlen. destruct os as [|o os']; [done|].
    apply Nat.eqb_neq in Hlen. by rewrite Hlen.
  - intros i a b Hne Hlen Ha Hb Hab Hlt.
    rewrite Hlen, Nat.eqb_refl, andb_false_r.
    by rewrite (compare_specifiers_first_difference 0 os ts i a b).
  - intros Hne <-. rewrite Nat.eqb_refl, andb_false_r.
    by rewrite compare_specifiers_same.
Qed.

Lemma check_format_specifiers_spec_witness :
  check_format_specifiers ascii_tables (py "Hello") (py "100%% %d") empty_world
  = (Return tt, empty_world) /\
  fst (check_format_specifiers ascii_tables (py "Player %s has %d points")
         (py "Player %s") empty_world)
  = Exit (CountMismatch (py "Player %s has %d points") (py "Player %s")) /\
  fst (check_format_specifiers ascii_tables (py "Player %s has %d points")
         (py "%s: %5d") empty_world)
  = Exit (SpecifierMismatch 2 (py "%d") (py "%5d")) /\
  check_format_specifiers ascii_tables (py "Player %s has %d points")
    (py "%s: %d") empty_world
  = (Return tt, empty_world).
Proof.
  split; [|split; [|split]].
  - apply (proj1 (check_format_specifiers_spec ascii_tables
                    (py "Hello") (py "100%% %d") empty_world)).
    vm_compute. reflexivity.
  - rewrite (proj1 (proj2 (check_format_specifiers_spec ascii_tables
                    (py "Player %s has %d points") (py "Player %s") empty_world))).
    + reflexivity.
    + vm_compute. discriminate.
    + vm_compute. lia.
  - rewrite (proj1 (proj2 (proj2 (check_format_specifiers_spec ascii_tables
                    (py "Player %s has %d points") (py "%s: %5d") empty_world)))
               1%nat (py "%d") (py "%5d")).
    + reflexivity.
    + vm_compute. discriminate.
    + vm_compute. reflexivity.
    + vm_compute. reflexivity.
    + vm_compute. reflexivity.
    + vm_compute. discriminate.
    + intros [|j] Hj; [vm_compute; reflexivity | lia].
  - apply (proj2 (proj2 (proj2 (check_format_specifiers_spec ascii_tables
                    (py "Player %s has %d points") (py "%s: %d") empty_world)))).
    + vm_compute. discriminate.
    + vm_compute. reflexivity.
Defined.

(** ** The effects of one call of [translate_text] *)

Lemma check_format_specifiers_cases U original translated w :
  check_format_specifiers U original translated w = (Return tt, w) \/
  exists m, check_format_specifiers U original translated w
            = (Exit m, logging_error m w).
Proof.
  unfold check_format_specifiers.
  destruct (_ && _); [right; eauto|].
  destruct (compare_specifiers _ _ _); [right; eauto | by left].
Qed.

(** The check in the goal either returns or logs a message and ends the
    run. *)
Ltac check_cases :=
  match goal with
  | |- context [check_format_specifiers ?U ?o ?t ?w] =>
      destruct (check_format_specifiers_cases U o t w) as [-> | [? ->]]
  end.

Lemma frame_same text w w' :
  requests w' = requests w ->
  translations_cache w' = translations_cache w ->
  frame text w w'.
Proof.
  intros Hr Hc. split; [exists 0%nat; cbn; by rewrite app_nil_r | by rewrite Hc].
Qed.

Lemma frame_refl text w : frame text w w.
Proof. by apply frame_same. Qed.

Lemma frame_trans text w1 w2 w3 :
  frame text w1 w2 -> frame text w2 w3 -> frame text w1 w3.
Proof.
  intros [[k1 H1] C1] [[k2 H2] C2]. split.
  - exists (k1 + k2)%nat. by rewrite H2, H1, replicate_add, app_assoc.
  - intros t Ht. by rewrite C2, C1.
Qed.

Lemma frame_logging_error text m w : frame text w (logging_error m w).
Proof. by apply frame_same. Qed.

Lemma frame_time_sleep text n w : frame text w (time_sleep n w).
Proof. by apply frame_same. Qed.

Lemma frame_skip_append text t w : frame text w (skip_append t w).
Proof. by apply frame_same. Qed.

Lemma frame_request text w : frame text w (request text w).
Proof. split; [by exists 1%nat | done]. Qed.

Lemma frame_store text e w : frame text w (store text e w).
Proof.
  split; [exists 0%nat; cbn; by rewrite app_nil_r|].
  intros t Ht. cbn. by rewrite lookup_insert_ne.
Qed.

Lemma frame_commit text aliased e w : frame text w (commit aliased text e w).
Proof. destruct aliased; [apply frame_store | apply frame_refl]. Qed.

Lemma frame_check U text original translated w :
  frame text w (snd (check_format_specifiers U original translated w)).
Proof.
  destruct (check_format_specifiers_cases U original translated w)
    as [-> | [m ->]]; [apply frame_refl | apply frame_logging_error].
Qed.

Lemma frame_attempt_body U tr text w :
  frame text w (snd (attempt_body U tr text w)).
Proof.
  unfold attempt_body. destruct (tr _ _) as [translated|].
  - eapply frame_trans; [apply frame_request|].
    check_cases; [apply frame_refl | apply frame_logging_error].
  - apply frame_request.
Qed.

Lemma frame_translate_attempts U tr text e aliased retries remaining :
  forall attempt w,
    frame text w
      (snd (translate_attempts U tr text e aliased retries attempt remaining w)).
Proof.
  induction remaining as [|remaining IH]; intros attempt w.
  - apply frame_commit.
  - cbn [translate_attempts].
    pose proof (frame_attempt_body U tr text w) as Hb.
    destruct (attempt_body U tr text w) as [[t | x | m] w1]; cbn [snd] in *.
    + eapply frame_trans; [exact Hb | apply frame_store].
    + destruct (attempt <? retries - 1)%nat.
      * eapply frame_trans; [exact Hb|].
        eapply frame_trans; [|apply IH].
        eapply frame_trans; [apply frame_logging_error | apply frame_time_sleep].
      * eapply frame_trans; [exact Hb|]. cbn [snd].
        eapply frame_trans; [|apply frame_commit].
        eapply frame_trans; apply frame_logging_error.
    + eapply frame_trans; [exact Hb | apply frame_commit].
Qed.

Lemma frame_get_path text full_path w :
  frame text w (snd (get_path_start_from_mod_folder full_path w)).
Proof.
  unfold get_path_start_from_mod_folder.
  destruct (re_search _ _); [apply frame_refl | apply frame_logging_error].
Qed.

(** A call for [text] issues requests for [text] only and writes no
    record but the one of [text]. *)
Lemma frame_translate_text U text tr isComment file_path retries w :
  frame text w (snd (translate_text U text tr isComment file_path retries w)).
Proof.
  unfold translate_text.
  pose proof (frame_get_path text file_path w) as Hp.
  destruct (get_path_start_from_mod_folder file_path w) as [[rel | x | m] w1];
    cbn [snd] in Hp.
  - match goal with |- context [str_truthy ?v] => destruct (str_truthy v) end.
    + match goal with |- context [check_format_specifiers U ?o ?t ?w0] =>
        pose proof (frame_check U text o t w0) as Hc;
        destruct (check_format_specifiers U o t w0) as [[u | x | m] w2]
      end; cbn [snd] in *;
      (eapply frame_trans; [exact Hp|]);
      (eapply frame_trans; [exact Hc|]);
      first [apply frame_store | apply frame_commit].
    + destruct (re_search hiragana_katakana_pattern text).
      * eapply frame_trans; [exact Hp|]. cbn [snd].
        eapply frame_trans; [apply frame_store | apply frame_skip_append].
      * eapply frame_trans; [exact Hp | apply frame_translate_attempts].
  - eapply frame_trans; [exact Hp | apply frame_commit].
  - eapply frame_trans; [exact Hp | apply frame_commit].
Qed.

(** ** A run of characters of one class *)

Lemma star_loop_total ma k fuel st :
  (forall st', is_Some (k st')) -> is_Some (star_loop ma k fuel st).
Proof.
  intros Hk. destruct fuel as [|fuel]; cbn [star_loop]; [apply Hk|].
  destruct (ma st _); [done | apply Hk].
Qed.

(** The pattern [[class]+] matches at a position exactly when the
    character there is of the class. *)
Lemma match_at_class_run p prev s :
  is_Some (match_at (Plus (Cls p)) prev s) <->
  exists c s', s = c :: s' /\ p c = true.
Proof.
  unfold match_at, Plus. cbn [rmatch m_rest]. destruct s as [|c s].
  - split; [by intros [? ?] | by intros (? & ? & ? & _)].
  - destruct (p c) eqn:Hp.
    + split; [intros _; eauto|]. intros _.
      match goal with |- context [star_loop ?ma ?k ?f ?st] =>
        destruct (star_loop_total ma k f st) as [st' ->]; [by eauto|]
      end. done.
    + split; [by intros [? ?]|]. intros (c' & s' & E & Hc). simplify_eq. congruence.
Qed.

Lemma search_from_class_run p prev s :
  search_from (Plus (Cls p)) prev s = None <-> existsb p s = false.
Proof.
  revert prev. induction s as [|c s IH]; intros prev; cbn [search_from existsb].
  - destruct (match_at _ _ _) as [[n x]|] eqn:E; [|done].
    assert (Hs : is_Some (match_at (Plus (Cls p)) prev [])) by (rewrite E; eauto).
    apply match_at_class_run in Hs as (? & ? & ? & _). done.
  - destruct (match_at _ _ _) as [[n x]|] eqn:E.
    + assert (Hs : is_Some (match_at (Plus (Cls p)) prev (c :: s)))
        by (rewrite E; eauto).
      apply match_at_class_run in Hs as (c' & s' & ? & Hc). simplify_eq.
      rewrite Hc. done.
    + destruct (p c) eqn:Hp.
      * assert (Hs : is_Some (match_at (Plus (Cls p)) prev (c :: s)))
          by (apply match_at_class_run; eauto).
        rewrite E in Hs. by destruct Hs.
      * cbn [orb]. apply IH.
Qed.

Lemma re_search_class_run p s :
  re_search (Plus (Cls p)) s = None <-> existsb p s = false.
Proof. apply search_from_class_run. Qed.

Lemma findall_from_class_run p prev s :
  findall_from (Plus (Cls p)) 0 prev s = [] <-> existsb p s = false.
Proof.
  split.
  - revert prev. induction s as [|c s IH]; intros prev; [done|].
    cbn [findall_from existsb].
    destruct (match_at _ _ _) as [[n x]|] eqn:E; [done|]. intros Hf.
    destruct (p c) eqn:Hp.
    + assert (Hs : is_Some (match_at (Plus (Cls p)) prev (c :: s)))
        by (apply match_at_class_run; eauto).
      rewrite E in Hs. by destruct Hs.
    + cbn [orb]. by apply (IH (Some c)).
  - intros Hex. generalize 0%nat as skip. revert prev.
    induction s as [|c s IH]; intros prev skip; [done|].
    cbn [existsb] in Hex. apply orb_false_iff in Hex as [Hc Hs].
    cbn [findall_from]. destruct skip as [|skip]; [|by apply IH].
    destruct (match_at _ _ _) as [[n x]|] eqn:E; [|by apply IH].
    assert (Hm : is_Some (match_at (Plus (Cls p)) prev (c :: s)))
      by (rewrite E; eauto).
    apply match_at_class_run in Hm as (c' & s' & ? & Hc'). simplify_eq.
    congruence.
Qed.

Lemma re_findall_class_run p s :
  re_findall (Plus (Cls p)) s = [] <-> existsb p s = false.
Proof. apply findall_from_class_run. Qed.

(** The test of the three loops, on the characters of the span. *)
Lemma needs_translation_spec U span :
  needs_translation U span = true <->
  existsb is_cjk span = true /\ strip (is_space U) span <> [].
Proof.
  unfold needs_translation. rewrite andb_true_iff, !Nat.ltb_lt.
  pose proof (re_findall_class_run is_cjk span) as Hf.
  fold japanese_mandarin_pattern in Hf.
  split; intros [H1 H2]; split.
  - destruct (existsb is_cjk span); [done|].
    rewrite (proj2 Hf) in H1 by done. cbn in H1. lia.
  - intros E. rewrite E in H2. cbn in H2. lia.
  - destruct (re_findall japanese_mandarin_pattern span); [|cbn; lia].
    pose proof (proj1 Hf eq_refl). congruence.
  - destruct (strip (is_space U) span); [done | cbn; lia].
Qed.

(** ** [translate_text], branch by branch *)

Lemma translate_text_unfold U text tr isComment file_path retries w :
  translate_text U text tr isComment file_path retries w =
  match re_search mod_folder_pattern file_path with
  | None =>
      (Exit NoModFolder,
       commit (aliased_in w text) text (sighting w text isComment None)
         (logging_error NoModFolder w))
  | Some path =>
      let e := sighting w text isComment (Some (relative_path_of path)) in
      if str_truthy (Translated_Text e) then
        let cached := default [] (Translated_Text e) in
        match check_format_specifiers U text cached w with
        | (Return _, w') => (Return (Some cached), store text e w')
        | (Raise x, w') => (Raise x, commit (aliased_in w text) text e w')
        | (Exit m, w') => (Exit m, commit (aliased_in w text) text e w')
        end
      else
        match re_search hiragana_katakana_pattern text with
        | Some _ =>
            (Return (Some text),
             skip_append text (store text (set_Translated_Text text e) w))
        | None =>
            translate_attempts U tr text e (aliased_in w text) retries 0 retries w
        end
  end.
Proof.
  unfold translate_text, get_path_start_from_mod_folder.
  destruct (re_search mod_folder_pattern file_path) as [path|]; [|done].
  cbv zeta. fold (relative_path_of path).
  match goal with |- context [str_truthy ?v] => destruct (str_truthy v) eqn:Et end.
  - unfold sighting. rewrite Et.
    destruct (check_format_specifiers_cases U text
                (default [] (Translated_Text (sighting w text isComment
                   (Some (relative_path_of path))))) w) as [Hc | [m Hc]];
      unfold sighting in Hc; rewrite Hc; reflexivity.
  - unfold sighting. rewrite Et. reflexivity.
Qed.

Lemma sighting_Translated_Text w text isComment rel :
  Translated_Text (sighting w text isComment rel)
  = translations_cache w !! text ≫= Translated_Text.
Proof.
  unfold sighting.
  destruct (translations_cache w !! text) as [e|]; cbn [mbind option_bind].
  - destruct (dict_truthy e) eqn:Ed.
    + destruct isComment, rel; cbn;
        repeat (match goal with
                | |- context [match ?x with _ => _ end] => destruct x
                end; cbn); done.
    + assert (Translated_Text e = None) as ->.
      { unfold dict_truthy in Ed. by destruct (Translated_Text e). }
      destruct isComment, rel; cbn;
        repeat (match goal with
                | |- context [match ?x with _ => _ end] => destruct x
                end; cbn); done.
  - destruct isComment, rel; cbn;
      repeat (match goal with
              | |- context [match ?x with _ => _ end] => destruct x
              end; cbn); done.
Qed.

(** ** The retry loop *)

Lemma commit_cache aliased text e w w' :
  translations_cache w' = translations_cache w ->
  translations_cache (commit aliased text e w')
  = translations_cache (commit aliased text e w).
Proof. intros H. destruct aliased; cbn; by rewrite ?H. Qed.

Lemma commit_others aliased text e w :
  requests (commit aliased text e w) = requests w /\
  error_log (commit aliased text e w) = error_log w /\
  slept (commit aliased text e w) = slept w /\
  japanese_skip (commit aliased text e w) = japanese_skip w.
Proof. by destruct aliased. Qed.

Lemma attempt_body_fails U tr text w :
  tr (length (requests w)) text = Fails ->
  attempt_body U tr text w = (Raise OtherError, request text w).
Proof. unfold attempt_body. by intros ->. Qed.

Lemma attempt_body_requests U tr text w :
  requests (snd (attempt_body U tr text w)) = requests w ++ [text].
Proof.
  unfold attempt_body. destruct (tr _ _) as [translated|]; [|done].
  check_cases; done.
Qed.

(** When the backend fails [remaining] times in a row the loop ends with
    the original text, after [remaining] requests, as many logged errors
    and the final failure message, and a sleep of one second between two
    attempts. *)
Lemma translate_attempts_all_fail U tr text e aliased retries remaining :
  forall attempt w,
    (attempt + remaining = retries)%nat -> (0 < remaining)%nat ->
    (forall n, (n < remaining)%nat ->
               tr (length (requests w) + n)%nat text = Fails) ->
    let r := translate_attempts U tr text e aliased retries attempt remaining w in
    fst r = Return (Some text) /\
    requests (snd r) = requests w ++ replicate remaining text /\
    error_log (snd r)
    = error_log w ++ replicate remaining (ErrorTranslating text)
        ++ [FailedToTranslate text retries] /\
    slept (snd r) = slept w ++ replicate (remaining - 1) 1 /\
    japanese_skip (snd r) = japanese_skip w /\
    translations_cache (snd r) = translations_cache (commit aliased text e w).
Proof.
  induction remaining as [|remaining IH]; intros attempt w Hsum Hpos Hfail; [lia|].
  cbn [translate_attempts].
  rewrite attempt_body_fails
    by (rewrite <- (Hfail 0%nat) by lia; f_equal; lia).
  destruct remaining as [|remaining].
  - assert ((attempt <? retries - 1)%nat = false) as -> by (apply Nat.ltb_ge; lia).
    cbn [fst snd].
    destruct (commit_others aliased text e
                (logging_error (FailedToTranslate text retries)
                   (logging_error (ErrorTranslating text) (request text w))))
      as (-> & -> & -> & ->).
    split_and!; try done.
    + cbn. by rewrite <- app_assoc.
    + cbn. by rewrite app_nil_r.
    + by apply commit_cache.
  - assert ((attempt <? retries - 1)%nat = true) as -> by (apply Nat.ltb_lt; lia).
    set (w1 := time_sleep 1 (logging_error (ErrorTranslating text) (request text w))).
    destruct (IH (S attempt) w1) as (Hr & Hq & Hl & Hs & Hj & Hc); [lia | lia | |].
    { intros n Hn. subst w1. cbn. rewrite length_app. cbn.
      rewrite <- (Hfail (S n)) by lia. f_equal. lia. }
    cbv zeta in *. split_and!.
    + exact Hr.
    + rewrite Hq. subst w1. cbn. by rewrite <- app_assoc.
    + rewrite Hl. subst w1. cbn. by rewrite <- !app_assoc.
    + rewrite Hs. subst w1. cbn. rewrite Nat.sub_0_r. by rewrite <- app_assoc.
    + rewrite Hj. done.
    + rewrite Hc. by apply commit_cache.
Qed.

(** The first thing the loop does, when it has an iteration to run, is a
    request. *)
Lemma translate_attempts_requests U tr text e aliased retries attempt remaining w :
  exists k,
    requests (snd (translate_attempts U tr text e aliased retries attempt
                     (S remaining) w))
    = requests w ++ text :: replicate k text.
Proof.
  cbn [translate_attempts].
  pose proof (attempt_body_requests U tr text w) as Hb.
  destruct (attempt_body U tr text w) as [[t | x | m] w1]; cbn [snd] in *.
  - exists 0%nat. cbn. by rewrite Hb.
  - destruct (attempt <? retries - 1)%nat.
    + destruct (frame_translate_attempts U tr text e aliased retries remaining
                  (S attempt)
                  (time_sleep 1 (logging_error (ErrorTranslating text) w1)))
        as [[k Hk] _].
      exists k. rewrite Hk. cbn. rewrite Hb. by rewrite <- app_assoc.
    + exists 0%nat. cbn [snd]. destruct aliased; cbn; by rewrite Hb.
  - exists 0%nat. cbn [snd]. destruct aliased; cbn; by rewrite Hb.
Qed.

(** ** Reuse of a cached translation *)

Lemma resolved_truthy w text cached :
  resolved w text cached ->
  aliased_in w text = true /\
  forall isComment rel,
    Translated_Text (sighting w text isComment rel) = Some cached.
Proof.
  intros (e & He & Ht & Hne). split.
  - unfold aliased_in. rewrite He. unfold dict_truthy. by rewrite Ht.
  - intros isComment rel. rewrite sighting_Translated_Text, He. exact Ht.
Qed.

Lemma resolved_store w text cached e :
  Translated_Text e = Some cached -> cached <> [] ->
  resolved (store text e w) text cached.
Proof. intros Ht Hne. exists e. cbn. by rewrite lookup_insert_eq. Qed.

Lemma resolved_same_cache w w' text cached :
  translations_cache w' = translations_cache w ->
  resolved w text cached -> resolved w' text cached.
Proof. intros Hc (e & He & Ht & Hne). exists e. by rewrite Hc. Qed.

(** A call for a resolved fragment: no request; when the path resolves,
    the check of the cached translation against the original decides the
    result; the fragment stays resolved. *)
Lemma translate_text_resolved U text cached tr isComment file_path retries w :
  resolved w text cached ->
  let r := translate_text U text tr isComment file_path retries w in
  requests (snd r) = requests w /\
  (forall path,
     re_search mod_folder_pattern file_path = Some path ->
     fst r = match fst (check_format_specifiers U text cached w) with
             | Return _ => Return (Some cached)
             | Raise x => Raise x
             | Exit m => Exit m
             end /\
     error_log (snd r)
     = error_log (snd (check_format_specifiers U text cached w))) /\
  resolved (snd r) text cached.
Proof.
  intros Hres. pose proof Hres as (e0 & _ & _ & Hne).
  destruct (resolved_truthy w text cached Hres) as [Hal Htt].
  cbv zeta. rewrite translate_text_unfold, Hal.
  destruct (re_search mod_folder_pattern file_path) as [path|].
  - cbv zeta. rewrite Htt. change (default [] (Some cached)) with cached.
    assert (Htr : str_truthy (Some cached) = true) by (by destruct cached).
    rewrite Htr.
    destruct (check_format_specifiers_cases U text cached w) as [-> | [m ->]];
      cbn [fst snd commit].
    + split_and!; [done | by intros ? _ | by apply resolved_store].
    + split_and!; [done | by intros ? _ | by apply resolved_store].
  - cbn [fst snd commit]. split_and!; [done | by intros ? ? | by apply resolved_store].
Qed.

Lemma keeps_refl t cached w : keeps t cached w w.
Proof.
  intros H. split; [|done]. exists []. split; [by rewrite app_nil_r|].
  apply not_elem_of_nil.
Qed.

Lemma keeps_trans t cached w1 w2 w3 :
  keeps t cached w1 w2 -> keeps t cached w2 w3 -> keeps t cached w1 w3.
Proof.
  intros H12 H23 H1. destruct (H12 H1) as [(a1 & E1 & N1) H2].
  destruct (H23 H2) as [(a2 & E2 & N2) H3]. split; [|done].
  exists (a1 ++ a2). split; [by rewrite E2, E1, app_assoc|].
  rewrite elem_of_app. tauto.
Qed.

Lemma keeps_same t cached w w' :
  requests w' = requests w ->
  translations_cache w' = translations_cache w ->
  keeps t cached w w'.
Proof.
  intros Hr Hc H. split; [|by apply (resolved_same_cache w)].
  exists []. split; [by rewrite app_nil_r | apply not_elem_of_nil].
Qed.

(** Whatever fragment a call is made for, a resolved fragment is not
    requested by it and stays resolved. *)
Lemma keeps_translate_text U t cached text tr isComment file_path retries w :
  keeps t cached w (snd (translate_text U text tr isComment file_path retries w)).
Proof.
  intros Hres. destruct (decide (text = t)) as [->|Hne].
  - destruct (translate_text_resolved U t cached tr isComment file_path retries w Hres)
      as (Hr & _ & Hk).
    split; [|exact Hk]. exists []. split; [by rewrite app_nil_r | apply not_elem_of_nil].
  - destruct (frame_translate_text U text tr isComment file_path retries w)
      as [[k Hk] Hc].
    split.
    + exists (replicate k text). split; [done|].
      intros Hin. apply elem_of_replicate in Hin as [-> _]. done.
    + destruct Hres as (e & He & Ht & Hn). exists e.
      rewrite Hc by done. done.
Qed.

Lemma keeps_translate_comment U t cached tr file_path comment content w :
  keeps t cached w (snd (translate_comment U tr file_path comment content w)).
Proof.
  unfold translate_comment. destruct (needs_translation U comment);
    [|apply keeps_refl].
  match goal with |- context [translate_text U ?x tr true file_path 100 w] =>
    pose proof (keeps_translate_text U t cached x tr true file_path 100 w) as Hk;
    destruct (translate_text U x tr true file_path 100 w) as [[[u|] | x' | m] w1]
  end; exact Hk.
Qed.

Lemma keeps_translate_quoted U t cached q tr file_path string content w :
  keeps t cached w (snd (translate_quoted U q tr file_path string content w)).
Proof.
  unfold translate_quoted. destruct (needs_translation U string);
    [|apply keeps_refl].
  match goal with |- context [translate_text U ?x tr false file_path 100 w] =>
    pose proof (keeps_translate_text U t cached x tr false file_path 100 w) as Hk;
    destruct (translate_text U x tr false file_path 100 w) as [[[u|] | x' | m] w1]
  end; exact Hk.
Qed.

Lemma keeps_for_each t cached body :
  (forall span content w, keeps t cached w (snd (body span content w))) ->
  forall spans content w, keeps t cached w (snd (for_each body spans content w)).
Proof.
  intros Hbody spans. induction spans as [|span spans IH]; intros content w.
  - apply keeps_refl.
  - cbn [for_each]. pose proof (Hbody span content w) as Hb.
    destruct (body span content w) as [[c | x | m] w1]; cbn [snd] in *;
      [|exact Hb|exact Hb].
    eapply keeps_trans; [exact Hb | apply IH].
Qed.

Lemma keeps_translate_content U t cached tr file_path content w :
  keeps t cached w (snd (translate_content U tr file_path content w)).
Proof.
  unfold translate_content.
  pose proof (keeps_for_each t cached (translate_comment U tr file_path)
    (fun s c w0 => keeps_translate_comment U t cached tr file_path s c w0)) as H1.
  pose proof (fun q => keeps_for_each t cached (translate_quoted U q tr file_path)
    (fun s c w0 => keeps_translate_quoted U t cached q tr file_path s c w0)) as H2.
  match goal with |- context [for_each ?b ?l ?c w] =>
    pose proof (H1 l c w) as Ha; destruct (for_each b l c w) as [[c1 | x | m] w1]
  end; cbn [snd] in *; [|exact Ha|exact Ha].
  match goal with |- context [for_each ?b ?l ?c w1] =>
    pose proof (H2 DQUOTE l c w1) as Hb;
    destruct (for_each b l c w1) as [[c2 | x | m] w2]
  end; cbn [snd] in *;
    [|eapply keeps_trans; [exact Ha | exact Hb]
     |eapply keeps_trans; [exact Ha | exact Hb]].
  eapply keeps_trans; [exact Ha|]. eapply keeps_trans; [exact Hb|]. apply H2.
Qed.

Lemma keeps_translate_file U t cached stylua content file_path tr w :
  keeps t cached w (snd (translate_file U stylua content file_path tr w)).
Proof.
  unfold translate_file.
  pose proof (keeps_translate_content U t cached tr file_path content w) as H.
  destruct (translate_content U tr file_path content w) as [[c | x | m] w1];
    cbn [snd] in *.
  - by destruct (decide _).
  - eapply keeps_trans; [exact H | by apply keeps_same].
  - exact H.
Qed.

Lemma keeps_translate_files U t cached stylua tr lua_files :
  forall w, keeps t cached w (snd (translate_files U stylua tr lua_files w)).
Proof.
  induction lua_files as [|[file_path content] lua_files IH]; intros w.
  - apply keeps_refl.
  - cbn [translate_files].
    pose proof (keeps_translate_file U t cached stylua content file_path tr w) as H.
    destruct (translate_file U stylua content file_path tr w) as [r w1];
      cbn [snd] in H.
    pose proof (IH w1) as H'.
    destruct (translate_files U stylua tr lua_files w1) as [rs w2];
      cbn [snd] in H'.
    destruct r; cbn [snd]; try exact H; eapply keeps_trans; eauto.
Qed.

(** C1. A fragment whose record holds a non-empty translation: a call of
    [translate_text] for it issues no request to the backend; provided
    the file path resolves, the call checks the placeholders of the cached
    translation against the original and returns the cached translation
    when the check passes (and ends the run with the error of the check
    when it does not); the record keeps its translation.  Consequently no
    request for the fragment is issued in the rest of a run, whatever files
    are processed. *)
Theorem cached_translation_is_reused (U : Unicode) (text cached : str) (e : entry)
    (tr : translator) (isComment : bool) (file_path : str) (retries : nat)
    (w : world) :
  translations_cache w !! text = Some e ->
  Translated_Text e = Some cached ->
  cached <> [] ->
  let r := translate_text U text tr isComment file_path retries w in
  requests (snd r) = requests w /\
  (forall path,
     re_search mod_folder_pattern file_path = Some path ->
     fst r = match fst (check_format_specifiers U text cached w) with
             | Return _ => Return (Some cached)
             | Raise x => Raise x
             | Exit m => Exit m
             end /\
     error_log (snd r)
     = error_log (snd (check_format_specifiers U text cached w))) /\
  (exists e', translations_cache (snd r) !! text = Some e' /\
              Translated_Text e' = Some cached) /\
  (forall stylua tr' lua_files,
     exists added,
       requests (snd (translate_files U stylua tr' lua_files w))
       = requests w ++ added /\ text ∉ added).
Proof.
  intros He Ht Hne.
  assert (Hres : resolved w text cached) by (exists e; done).
  destruct (translate_text_resolved U text cached tr isComment file_path retries w Hres)
    as (Hr & Hp & (e' & He' & Ht' & _)).
  cbv zeta. split_and!; [exact Hr | exact Hp | by exists e' |].
  intros stylua tr' lua_files.
  by destruct (keeps_translate_files U text cached stylua tr' lua_files w Hres).
Qed.

Lemma cached_translation_is_reused_witness :
  requests (snd (translate_text ascii_tables greeting failing false lua_path 100
                   greeting_world)) = [].
Proof.
  apply (proj1 (cached_translation_is_reused ascii_tables greeting (py "Hello %s")
                  greeting_entry failing false lua_path 100 greeting_world
                  ltac:(vm_compute; reflexivity) ltac:(reflexivity)
                  ltac:(vm_compute; discriminate))).
Defined.

Example reuse_run :
  fst (translate_text ascii_tables greeting failing false lua_path 100 greeting_world)
  = Return (Some (py "Hello %s")).
Proof. vm_compute. reflexivity. Qed.

(** ** Fragments that reach the backend, and fragments in kana *)

(** C3. A fragment that is submitted to the translator (the file path
    resolves, the cache holds no non-empty translation of it, and it has
    no kana) while the backend raises on every one of the [retries]
    attempts: [translate_text] returns the original text, having issued
    [retries] requests and logged every error and the final failure; it
    raises nothing. *)
Theorem translate_text_retry_exhaustion (U : Unicode) (text path : str)
    (tr : translator) (isComment : bool) (file_path : str) (retries : nat)
    (w : world) :
  re_search mod_folder_pattern file_path = Some path ->
  str_truthy (translations_cache w !! text ≫= Translated_Text) = false ->
  existsb is_kana text = false ->
  (0 < retries)%nat ->
  (forall n, (n < retries)%nat ->
             tr (length (requests w) + n)%nat text = Fails) ->
  let r := translate_text U text tr isComment file_path retries w in
  fst r = Return (Some text) /\
  requests (snd r) = requests w ++ replicate retries text /\
  error_log (snd r)
  = error_log w ++ replicate retries (ErrorTranslating text)
      ++ [FailedToTranslate text retries].
Proof.
  intros Hpath Hcache Hkana Hpos Hfail. cbv zeta.
  rewrite translate_text_unfold, Hpath. cbv zeta.
  rewrite sighting_Translated_Text, Hcache.
  apply re_search_class_run in Hkana. fold hiragana_katakana_pattern in Hkana.
  rewrite Hkana.
  match goal with |- context [translate_attempts U tr text ?e ?a retries 0 retries w] =>
    destruct (translate_attempts_all_fail U tr text e a retries retries 0%nat w)
      as (Hr & Hq & Hl & _)
  end; [lia | done | done |].
  cbv zeta in *. done.
Qed.

Lemma translate_text_retry_exhaustion_witness :
  fst (translate_text ascii_tables ni_hao failing true lua_path 100 empty_world)
  = Return (Some ni_hao).
Proof.
  apply (translate_text_retry_exhaustion ascii_tables ni_hao
           (py "workshop-1_translated_en\scripts\main.lua")
           failing true lua_path 100 empty_world).
  - vm_compute. reflexivity.
  - vm_compute. reflexivity.
  - vm_compute. reflexivity.
  - lia.
  - reflexivity.
Defined.

(** C9. A fragment with no record in the cache, submitted while the
    backend raises on every attempt: [translate_text] returns the original
    text and the cache is what it was, with no record for the fragment --
    the role flag and the path set during the call are lost -- so that a
    later call for the same fragment issues a request again. *)
Theorem failed_translation_leaves_no_record (U : Unicode) (text path : str)
    (tr : translator) (isComment : bool) (file_path : str) (retries : nat)
    (w : world) :
  translations_cache w !! text = None ->
  re_search mod_folder_pattern file_path = Some path ->
  existsb is_kana text = false ->
  (0 < retries)%nat ->
  (forall n, (n < retries)%nat ->
             tr (length (requests w) + n)%nat text = Fails) ->
  let r := translate_text U text tr isComment file_path retries w in
  fst r = Return (Some text) /\
  translations_cache (snd r) = translations_cache w /\
  translations_cache (snd r) !! text = None /\
  (forall tr' isComment' file_path' path' retries',
     re_search mod_folder_pattern file_path' = Some path' ->
     (0 < retries')%nat ->
     exists k,
       requests (snd (translate_text U text tr' isComment' file_path' retries'
                        (snd r)))
       = requests (snd r) ++ text :: replicate k text).
Proof.
  intros Hnone Hpath Hkana Hpos Hfail. cbv zeta.
  assert (Hal : aliased_in w text = false) by (unfold aliased_in; by rewrite Hnone).
  apply re_search_class_run in Hkana. fold hiragana_katakana_pattern in Hkana.
  rewrite translate_text_unfold, Hpath. cbv zeta.
  rewrite sighting_Translated_Text, Hnone. cbn [mbind option_bind str_truthy].
  rewrite Hkana, Hal.
  match goal with |- context [translate_attempts U tr text ?e false retries 0 retries w] =>
    destruct (translate_attempts_all_fail U tr text e false retries retries 0%nat w)
      as (Hr & _ & _ & _ & _ & Hc);
    [lia | done | done |];
    destruct (translate_attempts U tr text e false retries 0 retries w) as [r1 w1]
  end.
  cbn [fst snd commit] in *. split_and!; [done | done | by rewrite Hc |].
  intros tr' isComment' file_path' path' retries' Hpath' Hpos'.
  rewrite translate_text_unfold, Hpath'. cbv zeta.
  rewrite sighting_Translated_Text, Hc, Hnone. cbn [mbind option_bind str_truthy].
  rewrite Hkana. destruct retries' as [|n]; [lia|].
  apply translate_attempts_requests.
Qed.

Lemma failed_translation_leaves_no_record_witness :
  translations_cache
    (snd (translate_text ascii_tables ni_hao failing true lua_path 100 empty_world))
  !! ni_hao = None.
Proof.
  apply (failed_translation_leaves_no_record ascii_tables ni_hao
           (py "workshop-1_translated_en\scripts\main.lua")
           failing true lua_path 100 empty_world).
  - vm_compute. reflexivity.
  - vm_compute. reflexivity.
  - vm_compute. reflexivity.
  - lia.
  - reflexivity.
Defined.

Lemma all_kana_has_kana (text : str) :
  text <> [] -> forallb is_kana text = true -> existsb is_kana text = true.
Proof.
  destruct text as [|c text]; [done|]. cbn. intros _ H.
  apply andb_true_iff in H as [-> _]. done.
Qed.

(** C4. A fragment with a character in the range of Hiragana and
    Katakana ([U+3040] to [U+30FF]) and no non-empty cached translation,
    in a file whose path resolves: [translate_text] issues no request,
    returns the text as it is, stores it as its own translation, and adds
    it to the list of skipped fragments.  A non-empty fragment made of
    such characters only is a case of this, by [all_kana_has_kana]. *)
Theorem kana_fragment_is_skipped (U : Unicode) (text path : str)
    (tr : translator) (isComment : bool) (file_path : str) (retries : nat)
    (w : world) :
  existsb is_kana text = true ->
  str_truthy (translations_cache w !! text ≫= Translated_Text) = false ->
  re_search mod_folder_pattern file_path = Some path ->
  let r := translate_text U text tr isComment file_path retries w in
  fst r = Return (Some text) /\
  requests (snd r) = requests w /\
  (exists e, translations_cache (snd r) !! text = Some e /\
             Translated_Text e = Some text) /\
  japanese_skip (snd r) = japanese_skip w ++ [text].
Proof.
  intros Hkana Hcache Hpath. cbv zeta.
  rewrite translate_text_unfold, Hpath. cbv zeta.
  rewrite sighting_Translated_Text, Hcache.
  destruct (re_search hiragana_katakana_pattern text) as [x|] eqn:Hs.
  - cbn [fst snd]. split_and!; [done | done | | done].
    eexists. cbn. rewrite lookup_insert_eq. done.
  - apply re_search_class_run in Hs. congruence.
Qed.

Lemma kana_fragment_is_skipped_witness :
  fst (translate_text ascii_tables (kon ++ ni_hao) failing false lua_path 100
         empty_world)
  = Return (Some (kon ++ ni_hao)).
Proof.
  apply (kana_fragment_is_skipped ascii_tables (kon ++ ni_hao)
           (py "workshop-1_translated_en\scripts\main.lua")
           failing false lua_path 100 empty_world).
  - vm_compute. reflexivity.
  - vm_compute. reflexivity.
  - vm_compute. reflexivity.
Defined.

(** ** The text that comes back from the backend *)

Lemma check_format_specifiers_fst U original translated w w' :
  fst (check_format_specifiers U original translated w)
  = fst (check_format_specifiers U original translated w').
Proof.
  unfold check_format_specifiers.
  destruct (_ && _); [done|]. by destruct (compare_specifiers _ _ _).
Qed.

Lemma attempt_body_reply U tr text translated w :
  tr (length (requests w)) text = Reply translated ->
  let translated_text := replace (py "\ n") (py "\n") (capitalize U translated) in
  fst (check_format_specifiers U text translated_text w) = Return tt ->
  attempt_body U tr text w = (Return translated_text, request text w).
Proof.
  intros Htr translated_text Hc. unfold attempt_body. rewrite Htr.
  fold translated_text.
  rewrite (check_format_specifiers_fst U text translated_text w (request text w)) in Hc.
  destruct (check_format_specifiers_cases U text translated_text (request text w))
    as [-> | [m Hm]]; [done|]. rewrite Hm in Hc. done.
Qed.

(** After [k] failures the backend answers: the loop returns the answer,
    capitalised and with the escape repaired, and stores it. *)
Lemma translate_attempts_reply U tr text e aliased retries translated k :
  let translated_text := replace (py "\ n") (py "\n") (capitalize U translated) in
  forall remaining attempt w,
    (attempt + remaining = retries)%nat -> (k < remaining)%nat ->
    (forall n, (n < k)%nat -> tr (length (requests w) + n)%nat text = Fails) ->
    tr (length (requests w) + k)%nat text = Reply translated ->
    fst (check_format_specifiers U text translated_text w) = Return tt ->
    let r := translate_attempts U tr text e aliased retries attempt remaining w in
    fst r = Return (Some translated_text) /\
    requests (snd r) = requests w ++ replicate (S k) text /\
    translations_cache (snd r) !! text
    = Some (set_Translated_Text translated_text e).
Proof.
  intros translated_text.
  induction k as [|k IH]; intros remaining attempt w Hsum Hk Hfail Hreply Hcheck;
    (destruct remaining as [|remaining]; [lia|]); cbn [translate_attempts].
  - rewrite Nat.add_0_r in Hreply.
    rewrite (attempt_body_reply U tr text translated w Hreply Hcheck).
    fold translated_text. cbn [fst snd]. split_and!; [done | done |].
    cbn. by rewrite lookup_insert_eq.
  - rewrite attempt_body_fails
      by (rewrite <- (Hfail 0%nat) by lia; f_equal; lia).
    assert ((attempt <? retries - 1)%nat = true) as -> by (apply Nat.ltb_lt; lia).
    set (w1 := time_sleep 1 (logging_error (ErrorTranslating text) (request text w))).
    destruct (IH remaining (S attempt) w1) as (Hr & Hq & Hc); [lia | lia | | | |].
    + intros n Hn. subst w1. cbn. rewrite length_app. cbn.
      rewrite <- (Hfail (S n)) by lia. f_equal. lia.
    + subst w1. cbn. rewrite length_app. cbn.
      rewrite <- Hreply. f_equal. lia.
    + by rewrite (check_format_specifiers_fst U text translated_text w1 w).
    + cbv zeta in *. split_and!; [done | | done].
      rewrite Hq. subst w1. cbn. by rewrite <- app_assoc.
Qed.

(** C7, as amended. A fragment submitted to the translator (path
    resolved, no non-empty cached translation, no kana) for which the
    backend answers, after [k] failed attempts, a text whose placeholders
    pass the check: [translate_text] returns that text with its first
    character in title case and every other character in lower case, and
    then every backslash-space-n replaced by backslash-n; the result is
    stored as the translation of the fragment. *)
Theorem backend_text_is_capitalized (U : Unicode) (text path translated : str)
    (tr : translator) (isComment : bool) (file_path : str) (retries k : nat)
    (w : world) :
  re_search mod_folder_pattern file_path = Some path ->
  str_truthy (translations_cache w !! text ≫= Translated_Text) = false ->
  existsb is_kana text = false ->
  (k < retries)%nat ->
  (forall n, (n < k)%nat -> tr (length (requests w) + n)%nat text = Fails) ->
  tr (length (requests w) + k)%nat text = Reply translated ->
  let lowered :=
    match translated with
    | [] => []
    | c :: rest =>
        to_title U c ++ concat (map (to_lower U translated) (seq 1 (length rest)))
    end in
  let translated_text := replace (py "\ n") (py "\n") lowered in
  fst (check_format_specifiers U text translated_text w) = Return tt ->
  let r := translate_text U text tr isComment file_path retries w in
  fst r = Return (Some translated_text) /\
  (exists e, translations_cache (snd r) !! text = Some e /\
             Translated_Text e = Some translated_text).
Proof.
  intros Hpath Hcache Hkana Hk Hfail Hreply lowered translated_text Hcheck.
  assert (Hcap : capitalize U translated = lowered) by (by destruct translated).
  cbv zeta. rewrite translate_text_unfold, Hpath. cbv zeta.
  rewrite sighting_Translated_Text, Hcache.
  apply re_search_class_run in Hkana. fold hiragana_katakana_pattern in Hkana.
  rewrite Hkana.
  match goal with |- context [translate_attempts U tr text ?e ?a retries 0 retries w] =>
    destruct (translate_attempts_reply U tr text e a retries translated k
                retries 0%nat w) as (Hr & _ & Hc)
  end; try done.
  { rewrite Hcap. exact Hcheck. }
  rewrite Hcap in Hr, Hc. cbv zeta in *. split; [exact Hr|].
  eexists. split; [exact Hc | done].
Qed.

Lemma backend_text_is_capitalized_witness :
  fst (translate_text ascii_tables ni_hao (answering (py "hello World\ N")) false
         lua_path 100 empty_world)
  = Return (Some (py "Hello world\n")).
Proof.
  apply (backend_text_is_capitalized ascii_tables ni_hao
           (py "workshop-1_translated_en\scripts\main.lua") (py "hello World\ N")
           (answering (py "hello World\ N")) false lua_path 100 0 empty_world).
  - vm_compute. reflexivity.
  - vm_compute. reflexivity.
  - vm_compute. reflexivity.
  - lia.
  - intros n Hn. lia.
  - reflexivity.
  - vm_compute. reflexivity.
Defined.

(** C7 as the specification words it fails: the backend answers
    [hello World]; the result is [Hello world], with the second word
    altered, and not the answer with its first letter capitalised. *)
Lemma capitalization_alters_other_letters :
  fst (translate_text ascii_tables ni_hao (answering (py "hello World")) false
         lua_path 100 empty_world)
  = Return (Some (py "Hello world")) /\
  fst (translate_text ascii_tables ni_hao (answering (py "hello World")) false
         lua_path 100 empty_world)
  <> Return (Some (replace (py "\ n") (py "\n")
                     (first_letter_capitalized ascii_tables (py "hello World")))).
Proof. split; [vm_compute; reflexivity | vm_compute; discriminate]. Qed.

(** ** Stripping and replacing *)

Lemma take_drop_while p s : take_while p s ++ drop_while p s = s.
Proof.
  induction s as [|c s IH]; [done|]. cbn. destruct (p c); [|done].
  cbn. by rewrite IH.
Qed.

Lemma take_while_all p s : forallb p (take_while p s) = true.
Proof.
  induction s as [|c s IH]; [done|]. cbn. destruct (p c) eqn:E; [|done].
  cbn. by rewrite E, IH.
Qed.

Lemma drop_while_head p s c s' : drop_while p s = c :: s' -> p c = false.
Proof.
  induction s as [|x s IH]; [done|]. cbn. destruct (p x) eqn:E; [done|].
  intros ?. by simplify_eq.
Qed.

Lemma length_drop_while p s : (length (drop_while p s) <= length s)%nat.
Proof.
  induction s as [|c s IH]; [done|]. cbn. destruct (p c); cbn; lia.
Qed.

(** The slice [s[: len(s) - len(s.lstrip(chars))]]. *)
Lemma leading_slice p s :
  take (length s - length (lstrip p s)) s = take_while p s.
Proof.
  unfold lstrip. rewrite <- (take_drop_while p s) at 1 3.
  rewrite length_app.
  replace (length (take_while p s) + length (drop_while p s)
           - length (drop_while p s))%nat
    with (length (take_while p s)) by lia.
  by rewrite take_app_length.
Qed.

Lemma rstrip_take_while_end p s : rstrip p s ++ take_while_end p s = s.
Proof.
  unfold rstrip, take_while_end. rewrite <- rev_app_distr, take_drop_while.
  apply rev_involutive.
Qed.

(** The slice [s[len(s.rstrip(chars)):]]. *)
Lemma trailing_slice p s :
  drop (length (rstrip p s)) s = take_while_end p s.
Proof.
  rewrite <- (rstrip_take_while_end p s) at 2. by rewrite drop_app_length.
Qed.

Lemma take_while_end_all p s : forallb p (take_while_end p s) = true.
Proof.
  unfold take_while_end. rewrite forallb_forall. intros x Hx.
  apply in_rev in Hx.
  pose proof (take_while_all p (rev s)) as H. rewrite forallb_forall in H. auto.
Qed.

Lemma take_while_app p a b :
  drop_while p a <> [] -> take_while p (a ++ b) = take_while p a.
Proof.
  induction a as [|c a IH]; [done|]. cbn. destruct (p c); [|done].
  intros H. by rewrite IH.
Qed.

Lemma drop_while_app p a b :
  drop_while p a <> [] -> drop_while p (a ++ b) = drop_while p a ++ b.
Proof.
  induction a as [|c a IH]; [done|]. cbn. destruct (p c); [|done].
  intros H. by rewrite IH.
Qed.

Lemma rstrip_nonempty p s : rstrip p s <> [] <-> drop_while p (rev s) <> [].
Proof.
  unfold rstrip. split; intros H E; apply H.
  - by rewrite E.
  - apply (f_equal (@rev Z)) in E. by rewrite rev_involutive in E.
Qed.

(** A span whose core is not empty is its leading run, its core and its
    trailing run, in this order; the two runs are the ones the slices
    compute. *)
Lemma strip_decomposition p1 p2 s :
  rstrip p2 (lstrip p1 s) <> [] ->
  s = take_while p1 s ++ rstrip p2 (lstrip p1 s) ++ take_while_end p2 s.
Proof.
  intros Hcore. unfold lstrip in *.
  assert (Hend : take_while_end p2 s = take_while_end p2 (drop_while p1 s)).
  { unfold take_while_end. f_equal.
    rewrite <- (take_drop_while p1 s) at 1. rewrite rev_app_distr.
    apply take_while_app. by apply rstrip_nonempty. }
  rewrite Hend, rstrip_take_while_end. symmetry. apply take_drop_while.
Qed.

(** The core starts with a character that [lstrip] keeps and ends with
    one that [rstrip] keeps: the two runs are maximal. *)
Lemma lstrip_head p s c s' : lstrip p s = c :: s' -> p c = false.
Proof. apply drop_while_head. Qed.

Lemma rstrip_last p s c s' : rstrip p s = s' ++ [c] -> p c = false.
Proof.
  unfold rstrip. intros H. apply (f_equal (@rev Z)) in H.
  rewrite rev_involutive, rev_app_distr in H. cbn in H.
  by apply drop_while_head in H.
Qed.

Lemma drop_while_keeps p s x :
  In x s -> p x = false -> In x (drop_while p s).
Proof.
  induction s as [|c s IH]; [done|]. cbn. intros [->|Hin] Hp.
  - rewrite Hp. by left.
  - destruct (p c); [by apply IH | by right].
Qed.

Lemma strip_keeps p1 p2 s x :
  In x s -> p1 x = false -> p2 x = false -> In x (rstrip p2 (lstrip p1 s)).
Proof.
  intros Hin H1 H2. unfold rstrip, lstrip. apply in_rev. rewrite rev_involutive.
  apply drop_while_keeps; [|done]. apply in_rev. rewrite rev_involutive.
  by apply drop_while_keeps.
Qed.

(** [str.replace] at the first occurrence. *)
Lemma starts_with_app old post : starts_with old (old ++ post) = true.
Proof. induction old as [|a old IH]; [done|]. cbn. by rewrite Z.eqb_refl, IH. Qed.

Lemma replace_from_skip old new n s :
  replace_from old new n s = replace_from old new 0 (drop n s).
Proof.
  revert n. induction s as [|c s IH]; intros [|n]; try done.
  cbn [replace_from drop]. apply IH.
Qed.

Lemma replace_from_before old new pre rest :
  (forall i, (i < length pre)%nat ->
             starts_with old (drop i (pre ++ rest)) = false) ->
  replace_from old new 0 (pre ++ rest) = pre ++ replace_from old new 0 rest.
Proof.
  induction pre as [|c pre IH]; intros H; [done|].
  pose proof (H 0%nat ltac:(cbn; lia)) as H0. cbn [drop app] in H0.
  cbn [app replace_from]. rewrite H0, IH; [done|].
  intros i Hi. apply (H (S i)). cbn. lia.
Qed.

Lemma replace_first_occurrence old new pre post :
  old <> [] ->
  (forall i, (i < length pre)%nat ->
             starts_with old (drop i (pre ++ old ++ post)) = false) ->
  replace old new (pre ++ old ++ post) = pre ++ new ++ replace old new post.
Proof.
  intros Hne H. destruct old as [|a old]; [done|]. unfold replace.
  rewrite replace_from_before by done. f_equal.
  cbn [app replace_from].
  pose proof (starts_with_app (a :: old) post) as Hs. cbn [app] in Hs.
  rewrite Hs. f_equal. cbn [length Nat.pred].
  by rewrite replace_from_skip, drop_app_length.
Qed.

(** ** Spans written back into the buffer *)

(** The ends of a non-empty core are characters that the strips keep. *)
Lemma core_ends p1 p2 s :
  rstrip p2 (lstrip p1 s) <> [] ->
  (exists c rest, rstrip p2 (lstrip p1 s) = c :: rest /\ p1 c = false) /\
  (exists c rest, rstrip p2 (lstrip p1 s) = rest ++ [c] /\ p2 c = false).
Proof.
  intros Hcore. split.
  - pose proof (rstrip_take_while_end p2 (lstrip p1 s)) as Hm.
    destruct (rstrip p2 (lstrip p1 s)) as [|c rest] eqn:E; [done|].
    exists c, rest. split; [done|].
    symmetry in Hm. cbn in Hm. by apply lstrip_head in Hm.
  - destruct (rstrip p2 (lstrip p1 s)) as [|c rest] eqn:E using rev_ind; [done|].
    exists c, rest. split; [done|]. by apply rstrip_last in E.
Qed.

Lemma cjk_is_no_decoration c :
  is_cjk c = true ->
  leading_decoration c = false /\ trailing_decoration c = false.
Proof.
  unfold is_cjk, in_range. intros H.
  assert (Hc : 128 <= c) by lia.
  change (leading_decoration c) with (one_of [45; 91; 61; 32; 46; 9] c).
  change (trailing_decoration c) with (one_of [93; 45; 61; 32; 46; 9] c).
  unfold one_of. cbn [existsb].
  split; repeat (apply orb_false_iff; split); try done; apply Z.eqb_neq; lia.
Qed.

Lemma comment_core_nonempty U comment :
  needs_translation U comment = true ->
  rstrip trailing_decoration (lstrip leading_decoration comment) <> [].
Proof.
  intros H. apply needs_translation_spec in H as [H _].
  apply existsb_exists in H as (x & Hin & Hx).
  apply cjk_is_no_decoration in Hx as [H1 H2].
  pose proof (strip_keeps leading_decoration trailing_decoration comment x Hin H1 H2)
    as Hk.
  intros E. rewrite E in Hk. done.
Qed.

Lemma translate_comment_world U tr file_path comment content w :
  needs_translation U comment = true ->
  snd (translate_comment U tr file_path comment content w)
  = snd (translate_text U
           (rstrip trailing_decoration (lstrip leading_decoration comment))
           tr true file_path 100 w).
Proof.
  intros H. unfold translate_comment. rewrite H.
  by destruct (translate_text U _ tr true file_path 100 w) as [[[u|] | x | m] w1].
Qed.

(** C6, as amended. A comment that is translated: the longest leading run
    of the characters dash, opening bracket, equals sign, space, dot and
    tab, and the longest trailing run of the characters closing bracket,
    dash, equals sign, space, dot and tab, are set apart; what lies
    between them, the core, is the only text submitted for translation;
    and the comment is replaced in the buffer by the leading run, the
    translation of the core and the trailing run, the two runs being the
    characters of the original. *)
Theorem comment_decoration_is_preserved (U : Unicode) (tr : translator)
    (file_path comment : str) (w : world) :
  needs_translation U comment = true ->
  let leading := take_while leading_decoration comment in
  let trailing := take_while_end trailing_decoration comment in
  let core := rstrip trailing_decoration (lstrip leading_decoration comment) in
  let call := translate_text U core tr true file_path 100 w in
  comment = leading ++ core ++ trailing /\
  forallb leading_decoration leading = true /\
  forallb trailing_decoration trailing = true /\
  (exists c rest, core = c :: rest /\ leading_decoration c = false) /\
  (exists c rest, core = rest ++ [c] /\ trailing_decoration c = false) /\
  (exists k, forall content,
     requests (snd (translate_comment U tr file_path comment content w))
     = requests w ++ replicate k core) /\
  (forall t,
     fst call = Return (Some t) ->
     (forall content,
        translate_comment U tr file_path comment content w
        = (Return (replace comment (leading ++ t ++ trailing) content), snd call)) /\
     (forall pre post,
        (forall i, (i < length pre)%nat ->
                   starts_with comment (drop i (pre ++ comment ++ post)) = false) ->
        fst (translate_comment U tr file_path comment (pre ++ comment ++ post) w)
        = Return (pre ++ (leading ++ t ++ trailing)
                    ++ replace comment (leading ++ t ++ trailing) post))).
Proof.
  intros Hneeds leading trailing core call.
  pose proof (comment_core_nonempty U comment Hneeds) as Hcore. fold core in Hcore.
  destruct (core_ends leading_decoration trailing_decoration comment Hcore)
    as [Hhead Hlast].
  assert (Hdec : comment = leading ++ core ++ trailing)
    by (by apply strip_decomposition).
  split_and!;
    [exact Hdec | apply take_while_all | apply take_while_end_all
     | exact Hhead | exact Hlast | |].
  - destruct (frame_translate_text U core tr true file_path 100 w) as [[k Hk] _].
    exists k. intros content. by rewrite translate_comment_world.
  - intros t Ht.
    assert (Hstep : forall content,
      translate_comment U tr file_path comment content w
      = (Return (replace comment (leading ++ t ++ trailing) content), snd call)).
    { intros content. unfold translate_comment. rewrite Hneeds.
      rewrite leading_slice, trailing_slice. fold core leading trailing call.
      destruct call as [r w1]. cbn [fst snd] in *. by rewrite Ht. }
    split; [exact Hstep|]. intros pre post Hfirst.
    rewrite Hstep. cbn [fst]. f_equal.
    apply replace_first_occurrence; [|exact Hfirst].
    intros E. rewrite E in Hdec. by destruct leading, core.
Qed.

Lemma comment_decoration_is_preserved_witness :
  fst (translate_comment ascii_tables (answering (py "hello")) lua_path
         (py "--[[ " ++ ni_hao ++ py " ]]--")
         (py "x = 1 " ++ (py "--[[ " ++ ni_hao ++ py " ]]--") ++ [NEWLINE])
         empty_world)
  = Return (py "x = 1 " ++ (py "--[[ " ++ py "Hello" ++ py " ]]--") ++ [NEWLINE]).
Proof.
  pose proof (comment_decoration_is_preserved ascii_tables (answering (py "hello"))
                lua_path (py "--[[ " ++ ni_hao ++ py " ]]--") empty_world
                ltac:(vm_compute; reflexivity)) as H.
  cbv zeta in H. destruct H as (_ & _ & _ & _ & _ & _ & H).
  destruct (H (py "Hello") ltac:(vm_compute; reflexivity)) as [_ H'].
  rewrite (H' (py "x = 1 ") [NEWLINE]).
  - vm_compute. reflexivity.
  - intros i Hi.
    do 6 (destruct i as [|i]; [vm_compute; reflexivity|]).
    exfalso. vm_compute in Hi. lia.
Defined.

(** C6 as the specification words it fails: in the comment [--]] followed
    by two ideographs the closing bracket is a decoration character of the
    specification, yet it is not stripped at the leading end and is sent
    to the translator with the ideographs. *)
Lemma closing_bracket_is_not_stripped_in_front :
  requests (snd (translate_comment ascii_tables (answering (py "hello")) lua_path
                   (py "--]" ++ ni_hao) (py "--]" ++ ni_hao) empty_world))
  = [py "]" ++ ni_hao] /\
  rstrip decoration (lstrip decoration (py "--]" ++ ni_hao)) = ni_hao /\
  py "]" ++ ni_hao <> rstrip decoration (lstrip decoration (py "--]" ++ ni_hao)).
Proof. split_and!; vm_compute; (reflexivity || discriminate). Qed.




(** The three phases on a small file: a comment, a double-quoted and a
    single-quoted string. *)
Example translate_file_example :
  fst (translate_file ascii_tables (fun _ => None)
         (py "print('" ++ ni_hao ++ py "') -- " ++ ni_hao ++ py " --")
         lua_path (answering (py "hello")) empty_world)
  = Written (py "print(" ++ [DQUOTE] ++ py "Hello" ++ [DQUOTE]
               ++ py ") -- Hello --").
Proof. vm_compute. reflexivity. Qed.

(** ** Saving the dictionary *)

Lemma backoff_fields attempt k w :
  slept (backoff attempt k w)
  = slept w ++ map (fun n => 2 ^ Z.of_nat n) (seq attempt k) /\
  translations_cache (backoff attempt k w) = translations_cache w /\
  error_log (backoff attempt k w) = error_log w.
Proof.
  revert attempt w. induction k as [|k IH]; intros attempt w; cbn [backoff seq map].
  - by rewrite app_nil_r.
  - destruct (IH (S attempt) (time_sleep (2 ^ Z.of_nat attempt) w))
      as (-> & -> & ->).
    cbn. by rewrite <- app_assoc.
Qed.

Lemma open_attempts_retried B k :
  forall attempt remaining total w,
    total = (k + remaining)%nat ->
    (forall n, (n < k)%nat -> transient B (attempt + n)) ->
    open_attempts B attempt total w
    = open_attempts B (attempt + k) remaining (backoff attempt k w).
Proof.
  induction k as [|k IH]; intros attempt remaining total w -> Htr.
  - cbn. by rewrite Nat.add_0_r.
  - cbn [Nat.add open_attempts backoff].
    destruct (Htr 0%nat ltac:(lia)) as (status & Ho & Hs).
    rewrite Nat.add_0_r in Ho. rewrite Ho.
    assert (one_of [500; 503] status = true) as ->
      by (destruct Hs as [-> | ->]; reflexivity).
    rewrite (IH (S attempt) remaining (k + remaining)%nat).
    + f_equal. lia.
    + done.
    + intros n Hn. replace (S attempt + n)%nat with (attempt + S n)%nat by lia.
      apply Htr. lia.
Qed.

Lemma save_to_local_backup_returns B w :
  fst (save_to_local_backup B w)
  = match write_backup B with
    | None => ToBackup (translations_cache w)
    | Some _ => Nowhere
    end.
Proof. unfold save_to_local_backup. by destruct (write_backup B). Qed.

(** C8, as amended. With the client created, [k] attempts to open the
    sheet that meet a server error (status 500 or 503) are each followed
    by a sleep of [2^attempt] seconds, and:
    - when all three attempts are such, the failure is logged and the
      dictionary goes to the local snapshot, the operation returning even
      when the snapshot cannot be written;
    - when the sheet opens at attempt [k], the rows are written once, and
      any exception of that step is logged and followed by the local
      snapshot, the operation returning;
    - when attempt [k] meets an [HttpError] of another status, the error is
      logged and raised again;
    - when attempt [k] meets any other exception, it propagates.
    An exception of the creation of the client propagates as well. *)
Theorem save_retries_falls_back_or_raises (B : store_backend) (w : world) :
  let r := save_translations_to_google_sheets B w in
  let snapshot :=
    match write_backup B with
    | None => ToBackup (translations_cache w)
    | Some _ => Nowhere
    end in
  let pauses k := map (fun n => 2 ^ Z.of_nat n) (seq 0 k) in
  (forall e, authorize B = Some e -> r = (Raise e, w)) /\
  (authorize B = None ->
   (forall n, (n < 3)%nat -> transient B n) ->
   fst r = Return snapshot /\
   slept (snd r) = slept w ++ [1; 2; 4] /\
   FailedToOpenSheet ∈ error_log (snd r)) /\
  (forall k,
     authorize B = None -> (k < 3)%nat ->
     (forall n, (n < k)%nat -> transient B n) ->
     open_sheet B k = None ->
     slept (snd r) = slept w ++ pauses k /\
     match rows_of (map_to_list (translations_cache w)), update_sheet B with
     | Some rows, None => fst r = Return (ToSheet rows)
     | _, _ => fst r = Return snapshot /\ FailedToSave ∈ error_log (snd r)
     end) /\
  (forall k status,
     authorize B = None -> (k < 3)%nat ->
     (forall n, (n < k)%nat -> transient B n) ->
     open_sheet B k = Some (HttpError status) ->
     status <> 500 -> status <> 503 ->
     fst r = Raise (HttpError status) /\
     error_log (snd r) = error_log w ++ [HttpErrorWhileSaving status]) /\
  (forall k,
     authorize B = None -> (k < 3)%nat ->
     (forall n, (n < k)%nat -> transient B n) ->
     open_sheet B k = Some OtherError ->
     fst r = Raise OtherError).
Proof.
  intros r snapshot pauses. subst r. unfold save_translations_to_google_sheets.
  split_and!.
  - by intros e ->.
  - intros -> Htr.
    rewrite (open_attempts_retried B 3 0 0 3 w) by (done || (intros n Hn; by apply Htr)).
    cbn [open_attempts].
    destruct (backoff_fields 0 3 w) as (Hs & Hc & Hl).
    pose proof (save_to_local_backup_returns B
                  (logging_error FailedToOpenSheet (backoff 0 3 w))) as Hb.
    destruct (save_to_local_backup B _) as [p w1] eqn:E. cbn [fst snd] in *.
    split_and!.
    + rewrite Hb. subst snapshot. cbn [translations_cache logging_error]. by rewrite Hc.
    + unfold save_to_local_backup in E.
      destruct (write_backup B); simplify_eq; cbn [slept logging_error]; by rewrite Hs.
    + unfold save_to_local_backup in E.
      destruct (write_backup B); simplify_eq; cbn [error_log logging_error]; set_solver.
  - intros k -> Hk Htr Hopen.
    rewrite (open_attempts_retried B k 0 (S (2 - k)) 3 w) by (done || lia).
    cbn [open_attempts Nat.add]. rewrite Hopen.
    destruct (backoff_fields 0 k w) as (Hs & Hc & Hl). rewrite Hc.
    destruct (rows_of (map_to_list (translations_cache w))) as [rows|];
      [destruct (update_sheet B) as [x|]|].
    + pose proof (save_to_local_backup_returns B
                    (logging_error FailedToSave (backoff 0 k w))) as Hb.
      destruct (save_to_local_backup B _) as [p w1] eqn:E. cbn [fst snd] in *.
      unfold save_to_local_backup in E.
      split_and!.
      * destruct (write_backup B); simplify_eq; cbn [slept logging_error]; by rewrite Hs.
      * rewrite Hb. subst snapshot. cbn [translations_cache logging_error]. by rewrite Hc.
      * destruct (write_backup B); simplify_eq; cbn [error_log logging_error]; set_solver.
    + cbn [fst snd]. by rewrite Hs.
    + pose proof (save_to_local_backup_returns B
                    (logging_error FailedToSave (backoff 0 k w))) as Hb.
      destruct (save_to_local_backup B _) as [p w1] eqn:E. cbn [fst snd] in *.
      unfold save_to_local_backup in E.
      split_and!.
      * destruct (write_backup B); simplify_eq; cbn [slept logging_error]; by rewrite Hs.
      * rewrite Hb. subst snapshot. cbn [translations_cache logging_error]. by rewrite Hc.
      * destruct (write_backup B); simplify_eq; cbn [error_log logging_error]; set_solver.
  - intros k status -> Hk Htr Hopen H500 H503.
    rewrite (open_attempts_retried B k 0 (S (2 - k)) 3 w) by (done || lia).
    cbn [open_attempts Nat.add]. rewrite Hopen.
    assert (one_of [500; 503] status = false) as ->.
    { unfold one_of. cbn. rewrite !orb_false_iff, !Z.eqb_neq. done. }
    destruct (backoff_fields 0 k w) as (Hs & Hc & Hl).
    cbn [fst snd]. split; [done|]. cbn [error_log logging_error]. by rewrite Hl.
  - intros k -> Hk Htr Hopen.
    rewrite (open_attempts_retried B k 0 (S (2 - k)) 3 w) by (done || lia).
    cbn [open_attempts Nat.add]. by rewrite Hopen.
Qed.

Lemma save_retries_falls_back_or_raises_witness :
  fst (save_translations_to_google_sheets store_unavailable greeting_world)
  = Return (ToBackup (translations_cache greeting_world)) /\
  slept (snd (save_translations_to_google_sheets store_unavailable greeting_world))
  = [1; 2; 4] /\
  fst (save_translations_to_google_sheets store_not_found greeting_world)
  = Raise (HttpError 404).
Proof.
  pose proof (save_retries_falls_back_or_raises store_unavailable greeting_world)
    as H1.
  pose proof (save_retries_falls_back_or_raises store_not_found greeting_world)
    as H2.
  cbv zeta in H1, H2.
  destruct H1 as (_ & H1 & _). destruct H2 as (_ & _ & _ & H2 & _).
  destruct H1 as (Ha & Hb & _).
  - reflexivity.
  - intros n Hn. exists 503. split; [reflexivity | by right].
  - destruct (H2 0%nat 404) as [Hc _].
    + reflexivity.
    + lia.
    + intros n Hn. lia.
    + reflexivity.
    + lia.
    + lia.
    + split_and!; [exact Ha | exact Hb | exact Hc].
Defined.

(** C8 as the specification words it fails: when the service answers
    404 to the opening of the sheet, the save operation raises the error
    instead of completing, and nothing is saved. *)
Lemma save_raises_on_not_found :
  save_translations_to_google_sheets store_not_found greeting_world
  = (Raise (HttpError 404),
     logging_error (HttpErrorWhileSaving 404) greeting_world).
Proof. vm_compute. reflexivity. Qed.

(** * Further properties of the code *)

(** ** Patterns that begin with a fixed character *)

Lemma match_at_first_char c r prev s :
  match_at (Seq (Chr c) r) prev s <> None ->
  exists s', s = c :: s'.
Proof.
  unfold match_at, Chr. cbn [rmatch m_rest]. destruct s as [|x s]; [done|].
  unfold is_chr. destruct (Z.eqb_spec x c) as [->|]; [eauto | done].
Qed.

Lemma search_from_first_char c r prev s :
  existsb (is_chr c) s = false -> search_from (Seq (Chr c) r) prev s = None.
Proof.
  revert prev. induction s as [|x s IH]; intros prev Hc; cbn [search_from].
  - destruct (match_at _ _ _) as [[n y]|] eqn:E; [|done].
    destruct (match_at_first_char c r prev []) as [s' ?]; [by rewrite E | done].
  - cbn [existsb] in Hc. apply orb_false_iff in Hc as [Hx Hs].
    destruct (match_at _ _ _) as [[n y]|] eqn:E.
    + destruct (match_at_first_char c r prev (x :: s)) as [s' ?];
        [by rewrite E|]. simplify_eq. unfold is_chr in Hx.
      by rewrite Z.eqb_refl in Hx.
    + by apply IH.
Qed.

Lemma findall_from_first_char c r skip prev s :
  existsb (is_chr c) s = false -> findall_from (Seq (Chr c) r) skip prev s = [].
Proof.
  revert skip prev. induction s as [|x s IH]; intros skip prev Hc; [done|].
  cbn [existsb] in Hc. apply orb_false_iff in Hc as [Hx Hs].
  cbn [findall_from]. destruct skip as [|skip]; [|by apply IH].
  destruct (match_at _ _ _) as [[n y]|] eqn:E; [|by apply IH].
  destruct (match_at_first_char c r prev (x :: s)) as [s' ?]; [by rewrite E|].
  simplify_eq. unfold is_chr in Hx. by rewrite Z.eqb_refl in Hx.
Qed.

(** ** File paths without a backslash *)

(** X1. A file path that holds no backslash -- any path written with
    forward slashes -- has no mod folder for the script: every call of
    [translate_text] for such a file ends the run with the message of the
    missing mod folder, logged once, before any request. *)
Theorem path_without_backslash_ends_the_run (U : Unicode) (text : str)
    (tr : translator) (isComment : bool) (file_path : str) (retries : nat)
    (w : world) :
  existsb (is_chr BACKSLASH) file_path = false ->
  let r := translate_text U text tr isComment file_path retries w in
  fst r = Exit NoModFolder /\
  requests (snd r) = requests w /\
  error_log (snd r) = error_log w ++ [NoModFolder] /\
  japanese_skip (snd r) = japanese_skip w.
Proof.
  intros Hp. cbv zeta. rewrite translate_text_unfold.
  unfold re_search, mod_folder_pattern. rewrite search_from_first_char by done.
  cbn [fst snd].
  destruct (commit_others (aliased_in w text) text (sighting w text isComment None)
              (logging_error NoModFolder w)) as (-> & -> & _ & ->).
  done.
Qed.

Lemma path_without_backslash_ends_the_run_witness :
  fst (translate_text ascii_tables ni_hao (answering (py "hello")) false
         (py "/home/mods/workshop-1_translated_en/scripts/main.lua") 100
         empty_world)
  = Exit NoModFolder.
Proof.
  apply (path_without_backslash_ends_the_run ascii_tables ni_hao
           (answering (py "hello")) false
           (py "/home/mods/workshop-1_translated_en/scripts/main.lua") 100
           empty_world).
  vm_compute. reflexivity.
Defined.

(** ** Bounds and fatal errors of the retry loop *)

Lemma translate_attempts_bound U tr text e aliased retries remaining :
  forall attempt w,
    exists k, (k <= remaining)%nat /\
      requests (snd (translate_attempts U tr text e aliased retries attempt
                       remaining w))
      = requests w ++ replicate k text.
Proof.
  induction remaining as [|remaining IH]; intros attempt w.
  - exists 0%nat. split; [done|]. cbn [translate_attempts snd].
    destruct (commit_others aliased text e w) as (-> & _). cbn.
    by rewrite app_nil_r.
  - cbn [translate_attempts].
    pose proof (attempt_body_requests U tr text w) as Hb.
    destruct (attempt_body U tr text w) as [[t | x | m] w1]; cbn [snd] in *.
    + exists 1%nat. split; [lia|]. cbn. by rewrite Hb.
    + destruct (attempt <? retries - 1)%nat.
      * destruct (IH (S attempt)
                    (time_sleep 1 (logging_error (ErrorTranslating text) w1)))
          as (k & Hk & Hq).
        exists (S k). split; [lia|]. rewrite Hq. cbn. rewrite Hb.
        by rewrite <- app_assoc.
      * exists 1%nat. split; [lia|]. cbn [snd].
        destruct (commit_others aliased text e
                    (logging_error (FailedToTranslate text retries)
                       (logging_error (ErrorTranslating text) w1)))
          as (-> & _). cbn. by rewrite Hb.
    + exists 1%nat. split; [lia|].
      destruct (commit_others aliased text e w1) as (-> & _). by rewrite Hb.
Qed.

(** X2. One call of [translate_text] issues at most [retries] requests
    to the backend, all of them for the text it is called for. *)
Theorem requests_are_bounded_by_retries (U : Unicode) (text : str)
    (tr : translator) (isComment : bool) (file_path : str) (retries : nat)
    (w : world) :
  exists k, (k <= retries)%nat /\
    requests (snd (translate_text U text tr isComment file_path retries w))
    = requests w ++ replicate k text.
Proof.
  rewrite translate_text_unfold.
  destruct (re_search mod_folder_pattern file_path) as [path|].
  - cbv zeta. destruct (str_truthy _).
    + exists 0%nat. split; [lia|].
      match goal with |- context [check_format_specifiers U ?o ?t ?w0] =>
        destruct (check_format_specifiers_cases U o t w0) as [-> | [m ->]]
      end; cbn [snd].
      * cbn. by rewrite app_nil_r.
      * match goal with |- context [commit ?a ?t ?e ?w0] =>
          destruct (commit_others a t e w0) as (-> & _)
        end. cbn. by rewrite app_nil_r.
    + destruct (re_search hiragana_katakana_pattern text).
      * exists 0%nat. split; [lia|]. cbn. by rewrite app_nil_r.
      * apply translate_attempts_bound.
  - exists 0%nat. split; [lia|]. cbn [snd].
    match goal with |- context [commit ?a ?t ?e ?w0] =>
      destruct (commit_others a t e w0) as (-> & _)
    end. cbn. by rewrite app_nil_r.
Qed.

Lemma failed_attempts_fields text k w :
  requests (failed_attempts text k w) = requests w ++ replicate k text /\
  translations_cache (failed_attempts text k w) = translations_cache w /\
  error_log (failed_attempts text k w)
  = error_log w ++ replicate k (ErrorTranslating text) /\
  japanese_skip (failed_attempts text k w) = japanese_skip w.
Proof.
  revert w. induction k as [|k IH]; intros w; cbn [failed_attempts replicate].
  - by rewrite !app_nil_r.
  - destruct (IH (time_sleep 1 (logging_error (ErrorTranslating text)
                                  (request text w)))) as (-> & -> & -> & ->).
    cbn. by rewrite <- !app_assoc.
Qed.

(** The loop after [k] attempts that the backend fails, with attempts
    left. *)
Lemma translate_attempts_skip U tr text e aliased retries k :
  forall remaining attempt w,
    (attempt + remaining = retries)%nat -> (k < remaining)%nat ->
    (forall n, (n < k)%nat -> tr (length (requests w) + n)%nat text = Fails) ->
    translate_attempts U tr text e aliased retries attempt remaining w
    = translate_attempts U tr text e aliased retries (attempt + k)
        (remaining - k) (failed_attempts text k w).
Proof.
  induction k as [|k IH]; intros remaining attempt w Hsum Hk Hfail.
  - cbn [failed_attempts]. by rewrite Nat.add_0_r, Nat.sub_0_r.
  - destruct remaining as [|remaining]; [lia|]. cbn [translate_attempts].
    rewrite attempt_body_fails
      by (rewrite <- (Hfail 0%nat) by lia; f_equal; lia).
    assert ((attempt <? retries - 1)%nat = true) as -> by (apply Nat.ltb_lt; lia).
    rewrite IH; [| lia | lia |].
    + cbn [failed_attempts Nat.sub]. f_equal. lia.
    + intros n Hn. cbn. rewrite length_app. cbn.
      rewrite <- (Hfail (S n)) by lia. f_equal. lia.
Qed.

Lemma attempt_body_exit U tr text translated w m :
  tr (length (requests w)) text = Reply translated ->
  fst (check_format_specifiers U text
         (replace (py "\ n") (py "\n") (capitalize U translated)) w) = Exit m ->
  attempt_body U tr text w = (Exit m, logging_error m (request text w)).
Proof.
  intros Htr Hc. unfold attempt_body. rewrite Htr.
  rewrite (check_format_specifiers_fst U text _ w (request text w)) in Hc.
  destruct (check_format_specifiers_cases U text
              (replace (py "\ n") (py "\n") (capitalize U translated))
              (request text w)) as [E | [m0 E]];
    rewrite E in Hc |- *; cbn [fst] in Hc; by simplify_eq.
Qed.

(** A call that reaches the backend, by the record it works on. *)
Lemma translate_text_submitted U text path tr isComment file_path retries w :
  re_search mod_folder_pattern file_path = Some path ->
  str_truthy (translations_cache w !! text ≫= Translated_Text) = false ->
  existsb is_kana text = false ->
  translate_text U text tr isComment file_path retries w
  = translate_attempts U tr text
      (sighting w text isComment (Some (relative_path_of path)))
      (aliased_in w text) retries 0 retries w.
Proof.
  intros Hpath Hcache Hkana. rewrite translate_text_unfold, Hpath. cbv zeta.
  rewrite sighting_Translated_Text, Hcache.
  apply re_search_class_run in Hkana. fold hiragana_katakana_pattern in Hkana.
  by rewrite Hkana.
Qed.

Lemma commit_lookup_Translated_Text w0 w text isComment rel :
  translations_cache w0 = translations_cache w ->
  translations_cache
    (commit (aliased_in w text) text (sighting w text isComment rel) w0)
  !! text ≫= Translated_Text
  = translations_cache w !! text ≫= Translated_Text.
Proof.
  intros Hc. destruct (aliased_in w text); cbn [commit].
  - cbn. rewrite lookup_insert_eq. cbn. apply sighting_Translated_Text.
  - by rewrite Hc.
Qed.

(** X3. A fragment submitted to the translator for which the backend
    answers, after [k] failed attempts, a text whose placeholders do not
    pass the check: the run ends there with the error of the check, which
    is logged; the answer is not tried again, and the translation recorded
    for the fragment is what it was. *)
Theorem rejected_answer_ends_the_run (U : Unicode) (text path translated : str)
    (tr : translator) (isComment : bool) (file_path : str) (retries k : nat)
    (w : world) (m : log_msg) :
  re_search mod_folder_pattern file_path = Some path ->
  str_truthy (translations_cache w !! text ≫= Translated_Text) = false ->
  existsb is_kana text = false ->
  (k < retries)%nat ->
  (forall n, (n < k)%nat -> tr (length (requests w) + n)%nat text = Fails) ->
  tr (length (requests w) + k)%nat text = Reply translated ->
  fst (check_format_specifiers U text
         (replace (py "\ n") (py "\n") (capitalize U translated)) w) = Exit m ->
  let r := translate_text U text tr isComment file_path retries w in
  fst r = Exit m /\
  requests (snd r) = requests w ++ replicate (S k) text /\
  error_log (snd r)
  = error_log w ++ replicate k (ErrorTranslating text) ++ [m] /\
  translations_cache (snd r) !! text ≫= Translated_Text
  = translations_cache w !! text ≫= Translated_Text.
Proof.
  intros Hpath Hcache Hkana Hk Hfail Hreply Hcheck. cbv zeta.
  rewrite (translate_text_submitted U text path) by done.
  rewrite (translate_attempts_skip U tr text _ _ retries k retries 0 w)
    by (done || lia).
  destruct (failed_attempts_fields text k w) as (Hq & Hc & Hl & Hj).
  destruct (retries - k)%nat as [|remaining] eqn:E; [lia|].
  cbn [translate_attempts].
  rewrite (attempt_body_exit U tr text translated _ m).
  - cbn [fst snd]. split_and!.
    + done.
    + match goal with |- context [commit ?a ?t ?e ?w0] =>
        destruct (commit_others a t e w0) as (-> & _)
      end. cbn [requests logging_error request].
      by rewrite Hq, <- app_assoc, replicate_S_end.
    + match goal with |- context [commit ?a ?t ?e ?w0] =>
        destruct (commit_others a t e w0) as (_ & -> & _)
      end. cbn. by rewrite Hl, <- app_assoc.
    + apply commit_lookup_Translated_Text. cbn. exact Hc.
  - rewrite Hq, length_app, length_replicate. exact Hreply.
  - rewrite <- Hcheck. apply check_format_specifiers_fst.
Qed.

Lemma rejected_answer_ends_the_run_witness :
  fst (translate_text ascii_tables greeting (answering (py "hello")) false
         lua_path 100 empty_world)
  = Exit (CountMismatch greeting (py "Hello")).
Proof.
  apply (rejected_answer_ends_the_run ascii_tables greeting
           (py "workshop-1_translated_en\scripts\main.lua") (py "hello")
           (answering (py "hello")) false lua_path 100 0 empty_world).
  - vm_compute. reflexivity.
  - vm_compute. reflexivity.
  - vm_compute. reflexivity.
  - lia.
  - intros n Hn. lia.
  - reflexivity.
  - vm_compute. reflexivity.
Defined.

(** ** Texts that always pass the check *)

Lemma check_against_itself U text w :
  check_format_specifiers U text text w = (Return tt, w).
Proof.
  unfold check_format_specifiers.
  by rewrite Nat.eqb_refl, andb_false_r, compare_specifiers_same.
Qed.

Lemma check_without_percent U original translated w :
  existsb (is_chr (cp "%")) original = false ->
  re_findall (specifier_pattern U) original = [] /\
  check_format_specifiers U original translated w = (Return tt, w).
Proof.
  intros Hp.
  assert (Hf : re_findall (specifier_pattern U) original = [])
    by (by apply findall_from_first_char).
  split; [exact Hf|]. unfold check_format_specifiers. by rewrite Hf.
Qed.

(** X4. A text passes the check against itself, whatever placeholders
    it holds: leaving a fragment untranslated never ends the run. *)
Theorem check_format_specifiers_same (U : Unicode) (text : str) (w : world) :
  check_format_specifiers U text text w = (Return tt, w).
Proof. apply check_against_itself. Qed.

(** X5. An original without a percent sign has no placeholder, and every
    translation of it passes the check, whatever placeholders the
    translation holds. *)
Theorem check_format_specifiers_no_percent (U : Unicode)
    (original translated : str) (w : world) :
  existsb (is_chr (cp "%")) original = false ->
  re_findall (specifier_pattern U) original = [] /\
  check_format_specifiers U original translated w = (Return tt, w).
Proof. apply check_without_percent. Qed.

Lemma check_format_specifiers_no_percent_witness :
  check_format_specifiers ascii_tables ni_hao (py "100%% of %d") empty_world
  = (Return tt, empty_world).
Proof.
  apply (check_format_specifiers_no_percent ascii_tables ni_hao (py "100%% of %d")
           empty_world).
  vm_compute. reflexivity.
Defined.

(** ** A second call for the same fragment *)

Lemma translate_text_resolved_skip U text cached tr isComment file_path retries w :
  resolved w text cached ->
  japanese_skip (snd (translate_text U text tr isComment file_path retries w))
  = japanese_skip w.
Proof.
  intros Hres. destruct (resolved_truthy w text cached Hres) as [Hal Htt].
  rewrite translate_text_unfold.
  destruct (re_search mod_folder_pattern file_path) as [path|].
  - cbv zeta. rewrite Htt.
    assert (str_truthy (Some cached) = true) as ->.
    { destruct Hres as (? & _ & _ & Hne). by destruct cached. }
    check_cases; cbn [snd]; [done|].
    match goal with |- context [commit ?a ?t ?e ?w0] =>
      by destruct (commit_others a t e w0) as (_ & _ & _ & ->)
    end.
  - cbn [snd].
    match goal with |- context [commit ?a ?t ?e ?w0] =>
      by destruct (commit_others a t e w0) as (_ & _ & _ & ->)
    end.
Qed.

(** X6. Translate once, reuse afterwards.  After a call that has
    obtained a non-empty translation from the backend, every further call
    for the same fragment, from any file whose path resolves and whatever
    the backend would answer, returns that same translation and issues no
    request. *)
Theorem translation_is_requested_once (U : Unicode) (text path translated : str)
    (tr : translator) (isComment : bool) (file_path : str) (retries k : nat)
    (w : world) :
  re_search mod_folder_pattern file_path = Some path ->
  str_truthy (translations_cache w !! text ≫= Translated_Text) = false ->
  existsb is_kana text = false ->
  (k < retries)%nat ->
  (forall n, (n < k)%nat -> tr (length (requests w) + n)%nat text = Fails) ->
  tr (length (requests w) + k)%nat text = Reply translated ->
  let translated_text := replace (py "\ n") (py "\n") (capitalize U translated) in
  fst (check_format_specifiers U text translated_text w) = Return tt ->
  translated_text <> [] ->
  let r := translate_text U text tr isComment file_path retries w in
  forall tr' isComment' file_path' path' retries',
    re_search mod_folder_pattern file_path' = Some path' ->
    let r' := translate_text U text tr' isComment' file_path' retries' (snd r) in
    fst r' = Return (Some translated_text) /\
    requests (snd r') = requests (snd r).
Proof.
  intros Hpath Hcache Hkana Hk Hfail Hreply translated_text Hcheck Hne r.
  assert (Hres : resolved (snd r) text translated_text).
  { subst r. rewrite (translate_text_submitted U text path) by done.
    match goal with |- context [translate_attempts U tr text ?e ?a retries 0 retries w] =>
      destruct (translate_attempts_reply U tr text e a retries translated k
                  retries 0%nat w) as (_ & _ & Hc)
    end; try done.
    eexists. split; [exact Hc | done]. }
  intros tr' isComment' file_path' path' retries' Hpath' r'.
  destruct (translate_text_resolved U text translated_text tr' isComment'
              file_path' retries' (snd r) Hres) as (Hq & Hp & _).
  destruct (Hp path' Hpath') as [Hr _]. split; [|exact Hq].
  subst r'. rewrite Hr.
  rewrite (check_format_specifiers_fst U text translated_text (snd r) w).
  by rewrite Hcheck.
Qed.

Lemma translation_is_requested_once_witness :
  fst (translate_text ascii_tables ni_hao failing true lua_path 100
         (snd (translate_text ascii_tables ni_hao (answering (py "hello")) false
                 lua_path 100 empty_world)))
  = Return (Some (py "Hello")).
Proof.
  apply (translation_is_requested_once ascii_tables ni_hao
           (py "workshop-1_translated_en\scripts\main.lua") (py "hello")
           (answering (py "hello")) false lua_path 100 0 empty_world
           ltac:(vm_compute; reflexivity) ltac:(vm_compute; reflexivity)
           ltac:(vm_compute; reflexivity) ltac:(lia)
           ltac:(intros n Hn; lia) ltac:(reflexivity)
           ltac:(vm_compute; reflexivity) ltac:(vm_compute; discriminate)
           failing true lua_path
           (py "workshop-1_translated_en\scripts\main.lua") 100).
  vm_compute. reflexivity.
Defined.

(** X7. An empty answer is stored and never reused.  When the backend
    answers the empty string for a fragment without percent sign, the call
    returns the empty string and records it; the record does not count as
    a translation, and the next call for the fragment goes to the backend
    again. *)
Theorem empty_translation_is_requested_again (U : Unicode) (text path : str)
    (tr : translator) (isComment : bool) (file_path : str) (retries : nat)
    (w : world) :
  re_search mod_folder_pattern file_path = Some path ->
  str_truthy (translations_cache w !! text ≫= Translated_Text) = false ->
  existsb is_kana text = false ->
  existsb (is_chr (cp "%")) text = false ->
  (0 < retries)%nat ->
  tr (length (requests w)) text = Reply [] ->
  let r := translate_text U text tr isComment file_path retries w in
  fst r = Return (Some []) /\
  (exists e, translations_cache (snd r) !! text = Some e /\
             Translated_Text e = Some []) /\
  (forall tr' isComment' file_path' path' retries',
     re_search mod_folder_pattern file_path' = Some path' ->
     (0 < retries')%nat ->
     exists k,
       requests (snd (translate_text U text tr' isComment' file_path' retries'
                        (snd r)))
       = requests (snd r) ++ text :: replicate k text).
Proof.
  intros Hpath Hcache Hkana Hpct Hpos Hreply r.
  assert (Hrun : fst r = Return (Some []) /\
                 translations_cache (snd r) !! text ≫= Translated_Text = Some []).
  { subst r. rewrite (translate_text_submitted U text path) by done.
    match goal with |- context [translate_attempts U tr text ?e ?a retries 0 retries w] =>
      destruct (translate_attempts_reply U tr text e a retries [] 0
                  retries 0%nat w) as (Hr & _ & Hc)
    end; try done; try lia.
    - by rewrite Nat.add_0_r.
    - by rewrite (proj2 (check_without_percent U text _ w Hpct)).
    - cbv zeta in Hr, Hc. split; [exact Hr|]. by rewrite Hc. }
  destruct Hrun as [Hr Hc]. split_and!; [exact Hr | |].
  - destruct (translations_cache (snd r) !! text) as [e|]; [|done]. by exists e.
  - intros tr' isComment' file_path' path' retries' Hpath' Hpos'.
    rewrite translate_text_unfold, Hpath'. cbv zeta.
    rewrite sighting_Translated_Text, Hc. cbn [str_truthy].
    apply re_search_class_run in Hkana. fold hiragana_katakana_pattern in Hkana.
    rewrite Hkana. destruct retries' as [|n]; [lia|].
    apply translate_attempts_requests.
Qed.

Lemma empty_translation_is_requested_again_witness :
  fst (translate_text ascii_tables ni_hao (answering []) false lua_path 100
         empty_world)
  = Return (Some []).
Proof.
  apply (empty_translation_is_requested_again ascii_tables ni_hao
           (py "workshop-1_translated_en\scripts\main.lua")
           (answering []) false lua_path 100 empty_world).
  - vm_compute. reflexivity.
  - vm_compute. reflexivity.
  - vm_compute. reflexivity.
  - vm_compute. reflexivity.
  - lia.
  - reflexivity.
Defined.

Lemma existsb_nonempty (p : Z -> bool) (s : str) : existsb p s = true -> s <> [].
Proof. by destruct s. Qed.

(** X8. A fragment with kana is listed as skipped once.  After the call
    that skips it, every further call for the fragment, from any file
    whose path resolves, returns the text again without request, without
    ending the run, and without adding it to the list a second time. *)
Theorem kana_fragment_is_listed_once (U : Unicode) (text path : str)
    (tr : translator) (isComment : bool) (file_path : str) (retries : nat)
    (w : world) :
  existsb is_kana text = true ->
  str_truthy (translations_cache w !! text ≫= Translated_Text) = false ->
  re_search mod_folder_pattern file_path = Some path ->
  let r := translate_text U text tr isComment file_path retries w in
  forall tr' isComment' file_path' path' retries',
    re_search mod_folder_pattern file_path' = Some path' ->
    let r' := translate_text U text tr' isComment' file_path' retries' (snd r) in
    fst r' = Return (Some text) /\
    requests (snd r') = requests w /\
    japanese_skip (snd r') = japanese_skip w ++ [text].
Proof.
  intros Hkana Hcache Hpath r.
  assert (Hrun : requests (snd r) = requests w /\
                 japanese_skip (snd r) = japanese_skip w ++ [text] /\
                 resolved (snd r) text text).
  { subst r. rewrite translate_text_unfold, Hpath. cbv zeta.
    rewrite sighting_Translated_Text, Hcache.
    destruct (re_search hiragana_katakana_pattern text) as [x|] eqn:Hs.
    - cbn [snd]. split_and!; [done | done |].
      eexists. cbn. rewrite lookup_insert_eq. split_and!; [done | done |].
      by apply (existsb_nonempty is_kana).
    - apply re_search_class_run in Hs. congruence. }
  destruct Hrun as (Hq & Hj & Hres).
  intros tr' isComment' file_path' path' retries' Hpath' r'.
  destruct (translate_text_resolved U text text tr' isComment' file_path'
              retries' (snd r) Hres) as (Hq' & Hp & _).
  destruct (Hp path' Hpath') as [Hr _]. subst r'. split_and!.
  - rewrite Hr. by rewrite check_against_itself.
  - by rewrite Hq'.
  - by rewrite (translate_text_resolved_skip U text text).
Qed.

Lemma kana_fragment_is_listed_once_witness :
  japanese_skip
    (snd (translate_text ascii_tables kon failing true lua_path 100
            (snd (translate_text ascii_tables kon failing false lua_path 100
                    empty_world))))
  = [kon].
Proof.
  apply (kana_fragment_is_listed_once ascii_tables kon
           (py "workshop-1_translated_en\scripts\main.lua")
           failing false lua_path 100 empty_world
           ltac:(vm_compute; reflexivity) ltac:(vm_compute; reflexivity)
           ltac:(vm_compute; reflexivity)
           failing true lua_path
           (py "workshop-1_translated_en\scripts\main.lua") 100).
  vm_compute. reflexivity.
Defined.

(** ** The order of the lists of files *)

Lemma str_leb_total a b : str_leb a b = false -> str_leb b a = true.
Proof.
  revert b. induction a as [|x a IH]; intros [|y b]; cbn; try done.
  intros H. apply orb_false_iff in H as [Hlt H].
  apply Z.ltb_ge in Hlt. destruct (Z.eqb_spec x y) as [->|Hne].
  - cbn in H. rewrite Z.eqb_refl. cbn. rewrite (IH b H). apply orb_true_r.
  - assert ((y <? x) = true) as -> by (apply Z.ltb_lt; lia). done.
Qed.

Lemma insert_sorted_perm x l : insert_sorted x l ≡ₚ x :: l.
Proof.
  induction l as [|y l IH]; [done|]. cbn. destruct (str_leb x y); [done|].
  rewrite IH. apply Permutation_swap.
Qed.

Lemma sort_perm l : sort l ≡ₚ l.
Proof.
  induction l as [|x l IH]; [done|]. cbn. by rewrite insert_sorted_perm, IH.
Qed.

Lemma insert_sorted_head x l :
  match insert_sorted x l with
  | [] => False
  | h :: _ => h = x \/ exists t, l = h :: t /\ str_leb h x = true
  end.
Proof.
  destruct l as [|y l]; cbn; [by left|].
  destruct (str_leb x y) eqn:E; [by left|].
  right. exists l. split; [done|]. by apply str_leb_total.
Qed.

Lemma is_sorted_cons a b l :
  is_sorted (a :: b :: l) = str_leb a b && is_sorted (b :: l).
Proof. done. Qed.

Lemma is_sorted_tail a l : is_sorted (a :: l) = true -> is_sorted l = true.
Proof.
  destruct l as [|b l]; [done|]. rewrite is_sorted_cons.
  by intros [_ ?]%andb_true_iff.
Qed.

Lemma insert_sorted_sorted x l :
  is_sorted l = true -> is_sorted (insert_sorted x l) = true.
Proof.
  induction l as [|y l IH]; [done|]. intros Hs. cbn [insert_sorted].
  destruct (str_leb x y) eqn:E.
  - by rewrite is_sorted_cons, E, Hs.
  - specialize (IH (is_sorted_tail y l Hs)).
    pose proof (insert_sorted_head x l) as Hh.
    destruct (insert_sorted x l) as [|h t]; [done|].
    rewrite is_sorted_cons, IH, andb_true_r.
    destruct Hh as [-> | (t' & -> & _)].
    + by apply str_leb_total.
    + rewrite is_sorted_cons in Hs. by apply andb_true_iff in Hs as [? _].
Qed.

Lemma sort_sorted l : is_sorted (sort l) = true.
Proof.
  induction l as [|x l IH]; [done|]. cbn. by apply insert_sorted_sorted.
Qed.

(** ** The record a call leaves behind *)

Lemma attempt_body_cache U tr text w :
  translations_cache (snd (attempt_body U tr text w)) = translations_cache w.
Proof.
  unfold attempt_body. destruct (tr _ _) as [translated|]; [|done].
  check_cases; done.
Qed.

(** The record of [text] after the loop: the record the call works on
    with a translation set, or the record the call works on when it is
    the stored one, or the record there was. *)
Lemma translate_attempts_record U tr text e aliased retries remaining :
  forall attempt w,
    let c := translations_cache
               (snd (translate_attempts U tr text e aliased retries attempt
                       remaining w)) in
    (exists t, c !! text = Some (set_Translated_Text t e)) \/
    (aliased = true /\ c !! text = Some e) \/
    (aliased = false /\ c !! text = translations_cache w !! text).
Proof.
  induction remaining as [|remaining IH]; intros attempt w; cbv zeta.
  - cbn [translate_attempts snd]. destruct aliased; cbn.
    + right. left. by rewrite lookup_insert_eq.
    + by right; right.
  - cbn [translate_attempts].
    pose proof (attempt_body_cache U tr text w) as Hb.
    destruct (attempt_body U tr text w) as [[t | x | m] w1]; cbn [snd] in *.
    + left. exists t. cbn. by rewrite lookup_insert_eq.
    + destruct (attempt <? retries - 1)%nat.
      * destruct (IH (S attempt)
                    (time_sleep 1 (logging_error (ErrorTranslating text) w1)))
          as [H | [H | [Ha H]]]; [by left | by right; left |].
        right; right. split; [done|]. rewrite H. cbn. by rewrite Hb.
      * cbn [snd]. destruct aliased; cbn.
        -- right. left. by rewrite lookup_insert_eq.
        -- right; right. by rewrite Hb.
    + destruct aliased; cbn.
      * right. left. by rewrite lookup_insert_eq.
      * right; right. by rewrite Hb.
Qed.

Lemma translate_text_record U text path tr isComment file_path retries w :
  re_search mod_folder_pattern file_path = Some path ->
  let e := sighting w text isComment (Some (relative_path_of path)) in
  let c := translations_cache
             (snd (translate_text U text tr isComment file_path retries w)) in
  (exists t, c !! text = Some (set_Translated_Text t e)) \/
  c !! text = Some e \/
  (aliased_in w text = false /\ c !! text = translations_cache w !! text).
Proof.
  intros Hpath e c. subst c. rewrite translate_text_unfold, Hpath. cbv zeta.
  fold e. destruct (str_truthy (Translated_Text e)).
  - right. check_cases; cbn [snd].
    + left. cbn. by rewrite lookup_insert_eq.
    + destruct (aliased_in w text); cbn.
      * left. by rewrite lookup_insert_eq.
      * by right.
  - destruct (re_search hiragana_katakana_pattern text).
    + left. exists text. cbn. by rewrite lookup_insert_eq.
    + destruct (translate_attempts_record U tr text e (aliased_in w text)
                  retries retries 0%nat w) as [H | [[_ H] | H]]; auto.
Qed.

Lemma sighting_Found_In w text isComment rel :
  Found_In (sighting w text isComment (Some rel))
  = Some (if bool_decide (rel ∈ files_before w text) then files_before w text
          else sort (files_before w text ++ [rel])).
Proof.
  unfold sighting, files_before.
  destruct (translations_cache w !! text) as [[tte ic iq [l|]]|];
    [destruct (dict_truthy _)| destruct (dict_truthy _) |];
    destruct isComment; cbn; by case_bool_decide.
Qed.

Lemma sighting_role w text isComment rel :
  role_flag isComment (sighting w text isComment rel)
  = Some CHECK_MARK.
Proof.
  unfold sighting, role_flag.
  destruct (translations_cache w !! text) as [[tte ic iq [l|]]|];
    [destruct (dict_truthy _)| destruct (dict_truthy _) |];
    destruct isComment, rel; cbn; try done; by case_bool_decide.
Qed.

(** X9. The provenance of a fragment.  After a call of [translate_text]
    from a file whose path resolves to [rel], a non-empty record of the
    fragment carries the role flag of the call and lists [rel] among its
    files: the list is the one there was when [rel] was in it, and
    otherwise the list there was with [rel] added, in sorted order. *)
Theorem sighting_is_recorded (U : Unicode) (text path : str) (tr : translator)
    (isComment : bool) (file_path : str) (retries : nat) (w : world) (e' : entry) :
  re_search mod_folder_pattern file_path = Some path ->
  let rel := relative_path_of path in
  let r := translate_text U text tr isComment file_path retries w in
  translations_cache (snd r) !! text = Some e' ->
  dict_truthy e' = true ->
  role_flag isComment e' = Some CHECK_MARK /\
  exists files,
    Found_In e' = Some files /\
    rel ∈ files /\
    (rel ∈ files_before w text -> files = files_before w text) /\
    (rel ∉ files_before w text ->
     files ≡ₚ rel :: files_before w text /\ is_sorted files = true).
Proof.
  intros Hpath rel r He' Htruthy.
  assert (Hsame : Found_In e' = Found_In (sighting w text isComment (Some rel)) /\
                  role_flag isComment e'
                  = Some CHECK_MARK).
  { destruct (translate_text_record U text path tr isComment file_path retries w
                Hpath) as [[t H] | [H | [Hal H]]]; cbv zeta in H; fold r rel in H.
    - rewrite H in He'. simplify_eq. split; [done|].
      pose proof (sighting_role w text isComment (Some rel)). by destruct isComment.
    - rewrite H in He'. simplify_eq. split; [done|]. apply sighting_role.
    - rewrite H in He'. unfold aliased_in in Hal. rewrite He' in Hal. congruence. }
  destruct Hsame as [Hf Hrole]. split; [exact Hrole|].
  rewrite Hf, sighting_Found_In. eexists. split; [done|].
  case_bool_decide as Hin.
  - split_and!; [done | done | done].
  - split_and!.
    + rewrite sort_perm. set_solver.
    + done.
    + intros _. split; [|apply sort_sorted].
      rewrite sort_perm. by rewrite Permutation_app_comm.
Qed.

Lemma sighting_is_recorded_witness :
  exists files,
    Found_In (set_Translated_Text (py "Hello")
                (sighting empty_world ni_hao false
                   (Some (py "workshop-1\scripts\main.lua"))))
    = Some files /\
    py "workshop-1\scripts\main.lua" ∈ files.
Proof.
  destruct (sighting_is_recorded ascii_tables ni_hao
              (py "workshop-1_translated_en\scripts\main.lua")
              (answering (py "hello")) false lua_path 100 empty_world
              (set_Translated_Text (py "Hello")
                 (sighting empty_world ni_hao false
                    (Some (py "workshop-1\scripts\main.lua"))))
              ltac:(vm_compute; reflexivity) ltac:(vm_compute; reflexivity)
              ltac:(vm_compute; reflexivity))
    as (_ & files & Hf & Hin & _).
  exists files. split; [exact Hf | exact Hin].
Defined.

(** ** What a run keeps true of the state *)

Lemma translate_text_record_any U text tr isComment file_path retries w :
  let e := sighting w text isComment
             (relative_path_of <$> re_search mod_folder_pattern file_path) in
  let c := translations_cache
             (snd (translate_text U text tr isComment file_path retries w)) in
  (exists t, c !! text = Some (set_Translated_Text t e)) \/
  (is_Some (translations_cache w !! text) /\ c !! text = Some e) \/
  c !! text = translations_cache w !! text.
Proof.
  intros e c. subst c e. rewrite translate_text_unfold.
  assert (Hal : aliased_in w text = true -> is_Some (translations_cache w !! text)).
  { unfold aliased_in. by destruct (translations_cache w !! text). }
  destruct (re_search mod_folder_pattern file_path) as [path|]; cbn [fmap option_fmap option_map].
  - cbv zeta. set (e := sighting w text isComment (Some (relative_path_of path))).
    destruct (str_truthy (Translated_Text e)) eqn:Et.
    + assert (Hs : is_Some (translations_cache w !! text)).
      { subst e. rewrite sighting_Translated_Text in Et.
        by destruct (translations_cache w !! text). }
      right. left. split; [done|]. check_cases; cbn [snd].
      * cbn. by rewrite lookup_insert_eq.
      * destruct (aliased_in w text) eqn:Ea; cbn.
        -- by rewrite lookup_insert_eq.
        -- subst e. rewrite sighting_Translated_Text in Et.
           unfold aliased_in in Ea.
           destruct (translations_cache w !! text) as [e0|]; [|done].
           unfold dict_truthy in Ea. cbn in Et.
           by destruct (Translated_Text e0).
    + destruct (re_search hiragana_katakana_pattern text).
      * left. exists text. cbn. by rewrite lookup_insert_eq.
      * destruct (translate_attempts_record U tr text e (aliased_in w text)
                    retries retries 0%nat w) as [H | [[Ha H] | [_ H]]]; auto.
  - cbn [snd]. destruct (aliased_in w text) eqn:Ea; cbn.
    + right. left. split; [auto|]. by rewrite lookup_insert_eq.
    + by right; right.
Qed.

Lemma translate_text_keeps_keys U text tr isComment file_path retries w :
  has_translation_keys (translations_cache w) ->
  has_translation_keys
    (translations_cache (snd (translate_text U text tr isComment file_path retries w))).
Proof.
  intros Hk t e' He'. destruct (decide (t = text)) as [->|Hne].
  - destruct (translate_text_record_any U text tr isComment file_path retries w)
      as [[t' H] | [[[e0 He0] H] | H]]; cbv zeta in H; rewrite H in He'.
    + simplify_eq. by eexists.
    + simplify_eq. rewrite sighting_Translated_Text, He0. cbn. by apply (Hk text).
    + by apply (Hk text).
  - destruct (frame_translate_text U text tr isComment file_path retries w)
      as [_ Hc]. rewrite Hc in He' by done. by apply (Hk t).
Qed.

(** A property of the state that every call of [translate_text] and every
    logged message keep is kept by the processing of any list of files. *)
Section Invariant.

Context (U : Unicode) (P : world -> Prop).
Hypothesis P_translate_text :
  forall text tr isComment file_path retries w,
    P w -> P (snd (translate_text U text tr isComment file_path retries w)).
Hypothesis P_logging_error : forall m w, P w -> P (logging_error m w).

Lemma invariant_for_each body :
  (forall span content w, P w -> P (snd (body span content w))) ->
  forall spans content w, P w -> P (snd (for_each body spans content w)).
Proof.
  intros Hbody spans. induction spans as [|span spans IH]; intros content w Hw;
    [done|].
  cbn [for_each]. pose proof (Hbody span content w Hw) as Hb.
  destruct (body span content w) as [[c | x | m] w1]; cbn [snd] in *; auto.
Qed.

Lemma invariant_translate_comment tr file_path comment content w :
  P w -> P (snd (translate_comment U tr file_path comment content w)).
Proof.
  intros Hw. unfold translate_comment.
  destruct (needs_translation U comment); [|done].
  match goal with |- context [translate_text U ?x tr true file_path 100 w] =>
    pose proof (P_translate_text x tr true file_path 100%nat w Hw) as Hk;
    destruct (translate_text U x tr true file_path 100 w) as [[[u|] | x' | m] w1]
  end; exact Hk.
Qed.

Lemma invariant_translate_quoted q tr file_path string content w :
  P w -> P (snd (translate_quoted U q tr file_path string content w)).
Proof.
  intros Hw. unfold translate_quoted.
  destruct (needs_translation U string); [|done].
  match goal with |- context [translate_text U ?x tr false file_path 100 w] =>
    pose proof (P_translate_text x tr false file_path 100%nat w Hw) as Hk;
    destruct (translate_text U x tr false file_path 100 w) as [[[u|] | x' | m] w1]
  end; exact Hk.
Qed.

Lemma invariant_translate_content tr file_path content w :
  P w -> P (snd (translate_content U tr file_path content w)).
Proof.
  intros Hw. unfold translate_content.
  match goal with |- context [for_each ?b ?l ?c w] =>
    pose proof (invariant_for_each b
      (fun s c0 w0 => invariant_translate_comment tr file_path s c0 w0) l c w Hw)
      as Ha;
    destruct (for_each b l c w) as [[c1 | x | m] w1]
  end; cbn [snd] in *; [|exact Ha|exact Ha].
  match goal with |- context [for_each ?b ?l ?c w1] =>
    pose proof (invariant_for_each b
      (fun s c0 w0 => invariant_translate_quoted DQUOTE tr file_path s c0 w0)
      l c w1 Ha) as Hb;
    destruct (for_each b l c w1) as [[c2 | x | m] w2]
  end; cbn [snd] in *; [|exact Hb|exact Hb].
  apply invariant_for_each; [|exact Hb].
  intros s c0 w0. apply invariant_translate_quoted.
Qed.

Lemma invariant_translate_file stylua content file_path tr w :
  P w -> P (snd (translate_file U stylua content file_path tr w)).
Proof.
  intros Hw. unfold translate_file.
  pose proof (invariant_translate_content tr file_path content w Hw) as H.
  destruct (translate_content U tr file_path content w) as [[c | x | m] w1];
    cbn [snd] in *.
  - by destruct (decide _).
  - by apply P_logging_error.
  - exact H.
Qed.

Lemma invariant_translate_files stylua tr lua_files :
  forall w, P w -> P (snd (translate_files U stylua tr lua_files w)).
Proof.
  induction lua_files as [|[file_path content] lua_files IH]; intros w Hw;
    [done|].
  cbn [translate_files].
  pose proof (invariant_translate_file stylua content file_path tr w Hw) as H.
  destruct (translate_file U stylua content file_path tr w) as [r w1];
    cbn [snd] in H.
  pose proof (IH w1 H) as H'.
  destruct (translate_files U stylua tr lua_files w1) as [rs w2];
    cbn [snd] in H'.
  destruct r; cbn [snd]; auto.
Qed.

End Invariant.

Lemma rows_of_keys (items : list (str * entry)) :
  Forall (fun item => is_Some (Translated_Text (snd item))) items ->
  exists rows,
    rows_of items = Some rows /\
    Forall2 (fun item r =>
               Original_Text r = fst item /\
               Some (Translated r) = Translated_Text (snd item)) items rows.
Proof.
  induction 1 as [|[key value] items [t Ht] _ (rows & Hr & Hall)].
  - exists []. by split.
  - cbn in Ht. cbn [rows_of row_of]. rewrite Ht, Hr.
    eexists. split; [done|]. constructor; [|done]. cbn. by rewrite Ht.
Qed.

(** X10. Every record keeps a translation key through a run.  When
    every record of the cache has the key of the translated text -- as
    every record read from the dictionary sheet has -- every record has it
    after any list of files has been processed, whatever the backend did;
    the save operation then builds one row for each record and never meets
    a missing key. *)
Theorem run_keeps_translation_keys (U : Unicode) (stylua : str -> option str)
    (tr : translator) (lua_files : list (str * str)) (w : world) :
  has_translation_keys (translations_cache w) ->
  let w' := snd (translate_files U stylua tr lua_files w) in
  has_translation_keys (translations_cache w') /\
  exists rows,
    rows_of (map_to_list (translations_cache w')) = Some rows /\
    length rows = size (translations_cache w').
Proof.
  intros Hk w'.
  assert (Hk' : has_translation_keys (translations_cache w')).
  { subst w'.
    apply (invariant_translate_files U
             (fun w0 => has_translation_keys (translations_cache w0))); try done.
    intros. by apply translate_text_keeps_keys. }
  split; [exact Hk'|].
  destruct (rows_of_keys (map_to_list (translations_cache w'))) as (rows & Hr & Hall).
  - apply Forall_forall. intros [t e] Hin. apply elem_of_map_to_list in Hin.
    cbn. by apply (Hk' t).
  - exists rows. split; [exact Hr|].
    apply Forall2_length in Hall. rewrite <- Hall. apply length_map_to_list.
Qed.

Lemma run_keeps_translation_keys_witness :
  has_translation_keys
    (translations_cache
       (snd (translate_files ascii_tables (fun _ => None) (answering (py "hello"))
               [(lua_path, py "-- " ++ ni_hao)] greeting_world))).
Proof.
  apply (run_keeps_translation_keys ascii_tables (fun _ => None)
           (answering (py "hello")) [(lua_path, py "-- " ++ ni_hao)] greeting_world).
  intros t e He. unfold greeting_world in He. cbn in He.
  apply lookup_singleton_Some in He as [_ <-]. by eexists.
Defined.

(** ** Spans are made of characters of the buffer *)

Lemma within_advance s c rest st :
  m_rest st = c :: rest -> within s st -> within s (advance c rest st).
Proof.
  intros Hr [H1 H2]. split; [|exact H2]. cbn. rewrite Hr in H1.
  intros x Hx. apply H1. by right.
Qed.

Lemma within_capture s st st1 : within s st -> within s st1 -> within s (capture st st1).
Proof.
  intros [H1 _] [H1' _]. split; [exact H1'|]. cbn. intros g Hg. simplify_eq.
  etrans; [apply subseteq_take | exact H1].
Qed.

Lemma star_loop_within s ma :
  (forall st k st', within s st -> ma st k = Some st' ->
                    exists st1, within s st1 /\ k st1 = Some st') ->
  forall fuel st k st',
    within s st -> star_loop ma k fuel st = Some st' ->
    exists st1, within s st1 /\ k st1 = Some st'.
Proof.
  intros Hma. induction fuel as [|fuel IH]; intros st k st' Hw; cbn [star_loop].
  - eauto.
  - destruct (ma st _) as [x|] eqn:E; [|eauto]. intros ?. simplify_eq.
    destruct (Hma _ _ _ Hw E) as (st1 & Hw1 & Hk).
    destruct (_ <? _)%nat; [|done]. eauto.
Qed.

(** Whatever way a pattern matches, the continuation is entered at a
    position of the subject. *)
Lemma rmatch_within s r :
  forall st k st',
    within s st -> rmatch r st k = Some st' ->
    exists st1, within s st1 /\ k st1 = Some st'.
Proof.
  induction r as [p | a IHa b IHb | a IHa | a IHa | a IHa | p];
    intros st k st' Hw; cbn [rmatch].
  - destruct (m_rest st) as [|c rest] eqn:Hr; [done|].
    destruct (p c); [|done]. intros Hk. eexists. split; [|exact Hk].
    by apply within_advance.
  - intros H. destruct (IHa _ _ _ Hw H) as (st1 & Hw1 & H1). eauto.
  - destruct (rmatch a st k) as [x|] eqn:E; [|eauto]. intros ?. simplify_eq. eauto.
  - by apply star_loop_within.
  - intros H. destruct (IHa _ _ _ Hw H) as (st1 & Hw1 & H1).
    eexists. split; [|exact H1]. by apply within_capture.
  - destruct (m_prev st) as [c|]; [destruct (p c); [done|]|]; eauto.
Qed.

Lemma match_at_within r prev s n x : match_at r prev s = Some (n, x) -> x ⊆ s.
Proof.
  unfold match_at.
  assert (Hw : within s {| m_prev := prev; m_rest := s; m_grp := None |}).
  { split; cbn; [set_solver | by intros g Hg]. }
  destruct (rmatch r _ Some) as [st|] eqn:E; [|done]. intros ?. simplify_eq.
  destruct (rmatch_within s r _ _ _ Hw E) as (st1 & [H1 H2] & ?). simplify_eq.
  destruct (m_grp st) as [g|]; [by apply H2 | apply subseteq_take].
Qed.

Lemma findall_from_within r skip prev s x :
  x ∈ findall_from r skip prev s -> x ⊆ s.
Proof.
  revert skip prev. induction s as [|c s IH]; intros skip prev; cbn [findall_from].
  - by intros ?%elem_of_nil.
  - assert (Hs : s ⊆ c :: s) by (intros y Hy; by right).
    destruct skip as [|skip].
    + destruct (match_at r prev (c :: s)) as [[n y]|] eqn:E.
      * intros [-> | Hin]%elem_of_cons.
        -- by apply (match_at_within r prev _ n).
        -- etrans; [by eapply IH | exact Hs].
      * intros Hin. etrans; [by eapply IH | exact Hs].
    + intros Hin. etrans; [by eapply IH | exact Hs].
Qed.

Lemma existsb_subseteq (p : Z -> bool) (a b : str) :
  a ⊆ b -> existsb p b = false -> existsb p a = false.
Proof.
  intros Hab Hb. destruct (existsb p a) eqn:E; [|done].
  apply existsb_exists in E as (x & Hx & Hp).
  assert (existsb p b = true); [|congruence].
  apply existsb_exists. exists x. split; [|done].
  apply list_elem_of_In, Hab, list_elem_of_In, Hx.
Qed.

Lemma for_each_nothing_to_do body spans content w :
  (forall span c w0, span ∈ spans -> body span c w0 = (Return c, w0)) ->
  for_each body spans content w = (Return content, w).
Proof.
  induction spans as [|span spans IH]; intros H; [done|].
  cbn [for_each]. rewrite H by (by left). apply IH.
  intros s c w0 Hin. apply H. by right.
Qed.

Lemma no_cjk_nothing_to_translate U r content span :
  existsb is_cjk content = false ->
  span ∈ re_findall r content ->
  needs_translation U span = false.
Proof.
  intros Hc Hin. apply findall_from_within in Hin.
  destruct (needs_translation U span) eqn:E; [|done].
  apply needs_translation_spec in E as [E _].
  by rewrite (existsb_subseteq is_cjk span content) in E.
Qed.

(** X11. A file without any character of the ranges of kana and of CJK
    ideographs is left alone: no span is submitted, nothing is written,
    and the state is what it was.  So a file that has been translated in
    full is not changed by a second run. *)
Theorem file_without_source_text_is_unchanged (U : Unicode)
    (stylua : str -> option str) (content file_path : str) (tr : translator)
    (w : world) :
  existsb is_cjk content = false ->
  translate_file U stylua content file_path tr w = (NoChanges, w).
Proof.
  intros Hc. unfold translate_file, translate_content.
  rewrite for_each_nothing_to_do.
  - rewrite for_each_nothing_to_do.
    + rewrite for_each_nothing_to_do; [by rewrite decide_True|].
      intros span c w0 Hin. unfold translate_quoted.
      by rewrite (no_cjk_nothing_to_translate U _ content span Hc Hin).
    + intros span c w0 Hin. unfold translate_quoted.
      by rewrite (no_cjk_nothing_to_translate U _ content span Hc Hin).
  - intros span c w0 Hin. unfold translate_comment.
    by rewrite (no_cjk_nothing_to_translate U _ content span Hc Hin).
Qed.

Lemma file_without_source_text_is_unchanged_witness :
  translate_file ascii_tables (fun _ => None)
    (py "print('Hello') -- a comment") lua_path failing empty_world
  = (NoChanges, empty_world).
Proof.
  apply (file_without_source_text_is_unchanged ascii_tables (fun _ => None)
           (py "print('Hello') -- a comment") lua_path failing empty_world).
  vm_compute. reflexivity.
Defined.

(** ** Replacing a span by itself *)

Lemma starts_with_split old s :
  starts_with old s = true -> s = old ++ drop (length old) s.
Proof.
  revert s. induction old as [|a old IH]; intros [|c s]; cbn; try done.
  intros [Ha Hs]%andb_true_iff. apply Z.eqb_eq in Ha. subst c.
  f_equal. by apply IH.
Qed.

Lemma replace_from_same a old (n : nat) :
  forall s, (length s <= n)%nat ->
            replace_from (a :: old) (a :: old) 0 s = s.
Proof.
  induction n as [|n IH]; intros [|c s] Hn; cbn in Hn; try done; try lia.
  cbn [replace_from]. destruct (starts_with (a :: old) (c :: s)) eqn:E.
  - rewrite replace_from_skip, IH by (rewrite length_drop; lia).
    pose proof (starts_with_split (a :: old) (c :: s) E) as Hs.
    cbn [length Nat.pred]. cbn [length drop] in Hs. by rewrite <- Hs.
  - by rewrite IH by lia.
Qed.

Lemma replace_same old s : replace old old s = s.
Proof.
  destruct old as [|a old].
  - cbn. rewrite app_nil_r. induction s as [|c s IH]; [done|]. cbn. by rewrite IH.
  - apply (replace_from_same _ _ (length s)). lia.
Qed.

(** X12. A comment whose core comes back from [translate_text] as it is
    -- the backend has failed on every attempt, or the core is skipped for
    its kana -- leaves the buffer as it is. *)
Theorem untranslated_comment_leaves_the_buffer (U : Unicode) (tr : translator)
    (file_path comment content : str) (w : world) :
  needs_translation U comment = true ->
  let core := rstrip trailing_decoration (lstrip leading_decoration comment) in
  fst (translate_text U core tr true file_path 100 w) = Return (Some core) ->
  fst (translate_comment U tr file_path comment content w) = Return content.
Proof.
  intros Hneeds core Ht. unfold translate_comment. rewrite Hneeds.
  rewrite leading_slice, trailing_slice. fold core.
  destruct (translate_text U core tr true file_path 100 w) as [r w1].
  cbn [fst] in Ht. subst r. cbn [fst]. subst core.
  rewrite <- (strip_decomposition leading_decoration trailing_decoration comment)
    by (by apply (comment_core_nonempty U)).
  by rewrite replace_same.
Qed.

Lemma untranslated_comment_leaves_the_buffer_witness :
  fst (translate_comment ascii_tables failing lua_path (py "-- " ++ ni_hao ++ py " --")
         (py "x = 1 -- " ++ ni_hao ++ py " --") empty_world)
  = Return (py "x = 1 -- " ++ ni_hao ++ py " --").
Proof.
  apply (untranslated_comment_leaves_the_buffer ascii_tables failing lua_path
           (py "-- " ++ ni_hao ++ py " --") (py "x = 1 -- " ++ ni_hao ++ py " --")
           empty_world).
  - vm_compute. reflexivity.
  - vm_compute. reflexivity.
Defined.

(** ** What escaping adds *)

Lemma escape_from_without_backslashes q prev s :
  q <> BACKSLASH ->
  without_backslashes (escape_from q prev s) = without_backslashes s.
Proof.
  intros Hq. revert prev. induction s as [|c s IH]; intros prev; [done|].
  cbn [escape_from]. destruct (is_chr q c && _) eqn:E.
  - apply andb_true_iff in E as [E _]. apply Z.eqb_eq in E. subst c.
    unfold without_backslashes in *. cbn [List.filter].
    rewrite Z.eqb_refl. cbn [negb]. by rewrite IH.
  - unfold without_backslashes in *. cbn [List.filter]. by rewrite IH.
Qed.

Lemma escape_from_no_quote q prev s :
  existsb (is_chr q) s = false -> escape_from q prev s = s.
Proof.
  revert prev. induction s as [|c s IH]; intros prev; [done|].
  cbn [existsb escape_from]. intros [Hc Hs]%orb_false_iff.
  unfold is_chr in *. rewrite Z.eqb_sym in Hc. rewrite Z.eqb_sym, Hc. cbn.
  by rewrite IH.
Qed.

(** X13. [escape_quotes] adds backslashes and nothing else: without its
    backslashes the result is the text without its backslashes.  A text
    that holds no quote of either kind is returned as it is. *)
Theorem escape_quotes_adds_only_backslashes (text : str) :
  without_backslashes (escape_quotes text) = without_backslashes text /\
  (existsb (one_of [DQUOTE; SQUOTE]) text = false -> escape_quotes text = text).
Proof.
  rewrite escape_quotes_unfold. split.
  - by rewrite !escape_from_without_backslashes.
  - intros Hq.
    assert (existsb (is_chr DQUOTE) text = false /\
            existsb (is_chr SQUOTE) text = false) as [Hd Hs].
    { induction text as [|c text IH]; [done|]. cbn [existsb] in *.
      apply orb_false_iff in Hq as [Hc Ht]. destruct (IH Ht) as [-> ->].
      unfold one_of in Hc. cbn [existsb] in Hc.
      apply orb_false_iff in Hc as [H1 H2]. apply orb_false_iff in H2 as [H2 _].
      unfold is_chr. by rewrite H1, H2. }
    by rewrite (escape_from_no_quote DQUOTE), (escape_from_no_quote SQUOTE).
Qed.

Lemma escape_quotes_adds_only_backslashes_witness :
  escape_quotes (py "Hello \n world") = py "Hello \n world".
Proof.
  apply (escape_quotes_adds_only_backslashes (py "Hello \n world")).
  vm_compute. reflexivity.
Defined.

(** ** Loading and saving the dictionary *)

Lemma split_nonempty sep s : split sep s <> [].
Proof.
  destruct s as [|c s]; cbn; [done|].
  destruct (c =? sep); [done|]. by destruct (split sep s).
Qed.

Lemma split_app sep x rest :
  existsb (is_chr sep) x = false ->
  split sep (x ++ sep :: rest) = x :: split sep rest.
Proof.
  induction x as [|c x IH]; cbn [existsb app split].
  - intros _. by rewrite Z.eqb_refl.
  - intros [Hc Hx]%orb_false_iff. unfold is_chr in Hc. rewrite Hc.
    by rewrite (IH Hx).
Qed.

Lemma split_no_sep sep x : existsb (is_chr sep) x = false -> split sep x = [x].
Proof.
  induction x as [|c x IH]; cbn [existsb split]; [done|].
  intros [Hc Hx]%orb_false_iff. unfold is_chr in Hc. by rewrite Hc, (IH Hx).
Qed.

Lemma split_join sep l :
  l <> [] -> forallb (fun p => negb (existsb (is_chr sep) p)) l = true ->
  split sep (join [sep] l) = l.
Proof.
  induction l as [|x l IH]; [done|]. intros _ Hall. cbn [forallb] in Hall.
  apply andb_true_iff in Hall as [Hx Hl]. apply negb_true_iff in Hx.
  destruct l as [|y l].
  - cbn [join]. by apply split_no_sep.
  - change (join [sep] (x :: y :: l)) with (x ++ sep :: join [sep] (y :: l)).
    rewrite split_app by done. f_equal. by apply IH.
Qed.

Lemma found_in_of_cell_nonempty cell :
  cell <> [] -> found_in_of_cell (Some cell) = split NEWLINE cell.
Proof. by destruct cell. Qed.

(** X14. The list of files of a record survives the sheet.  The cell
    that the save operation writes for a list of paths, each of them not
    empty and without line break, is read back by the load operation as the
    same list. *)
Theorem found_in_round_trip (key : str) (value : entry) (files : list str) (r : row) :
  Found_In value = Some files ->
  forallb is_path files = true ->
  row_of (key, value) = Some r ->
  found_in_of_cell (Some (Found_In_Column r)) = files.
Proof.
  intros Hf Hp Hr. unfold row_of in Hr.
  destruct (Translated_Text value) as [t|]; [|done]. simplify_eq.
  cbn [Found_In_Column]. rewrite Hf.
  change (default [] (Some files)) with files.
  destruct files as [|p files]; [done|].
  assert (Hne : join [NEWLINE] (p :: files) <> []).
  { cbn [forallb] in Hp. apply andb_true_iff in Hp as [Hp _].
    unfold is_path in Hp. apply andb_true_iff in Hp as [Hp _].
    apply Nat.ltb_lt in Hp. destruct p; [cbn in Hp; lia|]. by destruct files. }
  rewrite found_in_of_cell_nonempty by done.
  apply split_join; [done|].
  clear -Hp. induction (p :: files) as [|x l IH]; [done|].
  cbn [forallb] in *. apply andb_true_iff in Hp as [Hx Hl].
  unfold is_path in Hx. apply andb_true_iff in Hx as [_ Hx].
  by rewrite Hx, IH.
Qed.

Lemma found_in_round_trip_witness :
  found_in_of_cell
    (Some (py "a\main.lua" ++ [NEWLINE] ++ py "b\util.lua"))
  = [py "a\main.lua"; py "b\util.lua"].
Proof.
  apply (found_in_round_trip ni_hao
           {| Translated_Text := Some (py "Hello"); Is_Comment := Some [];
              Is_Quotes := Some CHECK_MARK;
              Found_In := Some [py "a\main.lua"; py "b\util.lua"] |}
           [py "a\main.lua"; py "b\util.lua"]
           {| Original_Text := ni_hao; Translated := py "Hello";
              Comment_Column := []; Quotes_Column := CHECK_MARK;
              Found_In_Column := py "a\main.lua" ++ [NEWLINE] ++ py "b\util.lua" |}).
  - reflexivity.
  - vm_compute. reflexivity.
  - vm_compute. reflexivity.
Defined.

Lemma entries_of_keys data items :
  entries_of data = Some items ->
  Forall (fun item => is_Some (Translated_Text (snd item))) items.
Proof.
  revert items. induction data as [|r data IH]; intros items; cbn [entries_of].
  - intros ?. by simplify_eq.
  - destruct (entry_of_record r) as [item|] eqn:Er; [|done].
    destruct (entries_of data) as [items'|]; [|done]. intros ?. simplify_eq.
    constructor; [|by apply IH].
    unfold entry_of_record in Er.
    repeat (match type of Er with
            | match ?x with _ => _ end = _ => destruct x; [|done]
            end).
    simplify_eq. by eexists.
Qed.

Lemma dict_of_keys_from c items :
  has_translation_keys c ->
  Forall (fun item => is_Some (Translated_Text (snd item))) items ->
  has_translation_keys (foldl (fun c item => <[fst item := snd item]> c) c items).
Proof.
  revert c. induction items as [|[k v] items IH]; intros c Hc Hall; [done|].
  inversion Hall as [|? ? Hv Hrest]; subst. cbn [foldl]. apply IH; [|done].
  intros t e He. cbn in He. destruct (decide (k = t)) as [->|Hne].
  - rewrite lookup_insert_eq in He. by simplify_eq.
  - rewrite lookup_insert_ne in He by done. by apply (Hc t).
Qed.

(** X15. Whatever the dictionary sheet holds and whatever the backend
    does, the rows of the save operation can be built at the end of a run.
    The cache is empty when the program starts; the load operation replaces
    it by records that all have a translation, or, when the sheet cannot be
    read in full, leaves it as it is; and the processing of any list of
    files keeps a translation in every record. *)
Theorem loaded_dictionary_can_be_saved (U : Unicode)
    (data : option (list sheet_record)) (stylua : str -> option str)
    (tr : translator) (lua_files : list (str * str)) (w : world) :
  translations_cache w = fst (load_translations_from_google_sheets data ∅) ->
  is_Some (rows_of (map_to_list
             (translations_cache (snd (translate_files U stylua tr lua_files w))))).
Proof.
  intros Hload.
  assert (Hk : has_translation_keys (translations_cache w)).
  { rewrite Hload. unfold load_translations_from_google_sheets.
    assert (H0 : has_translation_keys (∅ : gmap str entry))
      by (intros t e He; by rewrite lookup_empty in He).
    destruct data as [rows|]; [|done].
    destruct (entries_of rows) as [items|] eqn:E; [|done].
    cbn [fst]. apply dict_of_keys_from; [done|]. by apply (entries_of_keys rows). }
  assert (Hk' : has_translation_keys
                  (translations_cache (snd (translate_files U stylua tr lua_files w)))).
  { apply (invariant_translate_files U
             (fun w0 => has_translation_keys (translations_cache w0))); try done.
    intros. by apply translate_text_keeps_keys. }
  destruct (rows_of_keys (map_to_list
              (translations_cache (snd (translate_files U stylua tr lua_files w)))))
    as (rows & Hr & _).
  - apply Forall_forall. intros [t e] Hin. apply elem_of_map_to_list in Hin.
    cbn. by apply (Hk' t).
  - by exists rows.
Qed.

Lemma loaded_dictionary_can_be_saved_witness :
  is_Some (rows_of (map_to_list
             (translations_cache
                (snd (translate_files ascii_tables (fun _ => None)
                        (answering (py "hello"))
                        [(lua_path, py "-- " ++ ni_hao)] empty_world))))).
Proof.
  apply (loaded_dictionary_can_be_saved ascii_tables None (fun _ => None)
           (answering (py "hello")) [(lua_path, py "-- " ++ ni_hao)] empty_world).
  reflexivity.
Defined.

Lemma entries_of_app data r items item :
  entries_of data = Some items -> entry_of_record r = Some item ->
  entries_of (data ++ [r]) = Some (items ++ [item]).
Proof.
  revert items. induction data as [|r0 data IH]; intros items; cbn [entries_of app].
  - intros ? ->. by simplify_eq.
  - destruct (entry_of_record r0) as [item0|]; [|done].
    destruct (entries_of data) as [items'|]; [|done]. intros ? Hr. simplify_eq.
    by rewrite (IH items' eq_refl Hr).
Qed.

(** X16. The load operation replaces the cache, and the last row of an
    original text wins.  When every row has the four columns that the
    comprehension reads, the cache after the load holds, for the original
    text of the last row, the record of that row, whatever earlier rows and
    the cache before said; and a load that fails on a missing column leaves
    the cache as it was and reports the failure. *)
Theorem load_last_row_wins (data : list sheet_record) (r : sheet_record)
    (cache : gmap str entry) :
  (forall items key value,
     entries_of data = Some items -> entry_of_record r = Some (key, value) ->
     let loaded := load_translations_from_google_sheets (Some (data ++ [r])) cache in
     snd loaded = None /\
     fst loaded !! key = Some value /\
     fst loaded = <[key := value]> (dict_of items)) /\
  (entries_of (data ++ [r]) = None ->
   load_translations_from_google_sheets (Some (data ++ [r])) cache
   = (cache, Some FailedToLoad)).
Proof.
  split.
  - intros items key value Hd Hr loaded. subst loaded.
    unfold load_translations_from_google_sheets.
    rewrite (entries_of_app data r items (key, value) Hd Hr). cbn [fst snd].
    unfold dict_of. rewrite foldl_app. cbn [foldl fst snd].
    by rewrite lookup_insert_eq.
  - intros E. unfold load_translations_from_google_sheets. by rewrite E.
Qed.

Lemma load_last_row_wins_witness :
  fst (load_translations_from_google_sheets
         (Some ([record_of_row
                   {| Original_Text := ni_hao; Translated := py "Hi";
                      Comment_Column := []; Quotes_Column := [];
                      Found_In_Column := [] |}]
                ++ [record_of_row
                      {| Original_Text := ni_hao; Translated := py "Hello";
                         Comment_Column := []; Quotes_Column := [];
                         Found_In_Column := [] |}]))
         (translations_cache greeting_world))
  !! ni_hao
  = Some {| Translated_Text := Some (py "Hello"); Is_Comment := Some [];
            Is_Quotes := Some []; Found_In := Some [] |}.
Proof.
  apply (proj1 (load_last_row_wins
                  [record_of_row
                     {| Original_Text := ni_hao; Translated := py "Hi";
                        Comment_Column := []; Quotes_Column := [];
                        Found_In_Column := [] |}]
                  (record_of_row
                     {| Original_Text := ni_hao; Translated := py "Hello";
                        Comment_Column := []; Quotes_Column := [];
                        Found_In_Column := [] |})
                  (translations_cache greeting_world))
           [(ni_hao,
             {| Translated_Text := Some (py "Hi"); Is_Comment := Some [];
                Is_Quotes := Some []; Found_In := Some [] |})]
           ni_hao
           {| Translated_Text := Some (py "Hello"); Is_Comment := Some [];
              Is_Quotes := Some []; Found_In := Some [] |}).
  - vm_compute. reflexivity.
  - vm_compute. reflexivity.
Defined.

(** X17. With the store in order and a translation in every record, the
    save operation writes the sheet at the first attempt: one row for each
    record of the cache, with its original text and its translation,
    without sleeping and without logging anything. *)
Theorem save_writes_one_row_per_record (B : store_backend) (w : world) :
  authorize B = None ->
  open_sheet B 0 = None ->
  update_sheet B = None ->
  has_translation_keys (translations_cache w) ->
  exists rows,
    save_translations_to_google_sheets B w = (Return (ToSheet rows), w) /\
    length rows = size (translations_cache w) /\
    (forall t e,
       translations_cache w !! t = Some e ->
       exists r, r ∈ rows /\ Original_Text r = t /\
                 Some (Translated r) = Translated_Text e).
Proof.
  intros Ha Ho Hu Hk.
  destruct (rows_of_keys (map_to_list (translations_cache w))) as (rows & Hr & Hall).
  { apply Forall_forall. intros [t e] Hin. apply elem_of_map_to_list in Hin.
    cbn. by apply (Hk t). }
  exists rows. split_and!.
  - unfold save_translations_to_google_sheets. rewrite Ha. cbn [open_attempts].
    by rewrite Ho, Hr, Hu.
  - apply Forall2_length in Hall. rewrite <- Hall. apply length_map_to_list.
  - intros t e He. apply elem_of_map_to_list in He.
    apply list_elem_of_lookup in He as [i Hi].
    destruct (Forall2_lookup_l _ _ _ _ _ Hall Hi) as (r & Hri & Hor & Htr).
    exists r. split_and!; [|done|done]. apply list_elem_of_lookup. by exists i.
Qed.

Lemma save_writes_one_row_per_record_witness :
  exists rows,
    save_translations_to_google_sheets store_ok greeting_world
    = (Return (ToSheet rows), greeting_world).
Proof.
  destruct (save_writes_one_row_per_record store_ok greeting_world
              ltac:(reflexivity) ltac:(reflexivity) ltac:(reflexivity))
    as (rows & Hs & _).
  - intros t e He. unfold greeting_world in He. cbn in He.
    apply lookup_singleton_Some in He as [_ <-]. by eexists.
  - by exists rows.
Defined.

(** ** Calls that fail for a fragment that has a record *)

(** X18. The record of a fragment that has one is the object the call
    writes into.  When a fragment has a non-empty record without
    translation and the backend raises on every attempt, the call returns
    the original text, and the record in the cache has nevertheless received
    the role flag of the call and the path of the file; its translation is
    what it was. *)
Theorem failed_translation_marks_existing_record (U : Unicode) (text path : str)
    (e0 : entry) (tr : translator) (isComment : bool) (file_path : str)
    (retries : nat) (w : world) :
  translations_cache w !! text = Some e0 ->
  dict_truthy e0 = true ->
  str_truthy (Translated_Text e0) = false ->
  re_search mod_folder_pattern file_path = Some path ->
  existsb is_kana text = false ->
  (0 < retries)%nat ->
  (forall n, (n < retries)%nat ->
             tr (length (requests w) + n)%nat text = Fails) ->
  let r := translate_text U text tr isComment file_path retries w in
  fst r = Return (Some text) /\
  exists e' files,
    translations_cache (snd r) !! text = Some e' /\
    role_flag isComment e' = Some CHECK_MARK /\
    Found_In e' = Some files /\
    relative_path_of path ∈ files /\
    Translated_Text e' = Translated_Text e0.
Proof.
  intros He0 Hd Ht Hpath Hkana Hpos Hfail r. subst r.
  rewrite (translate_text_submitted U text path) by (by rewrite ?He0).
  assert (Hal : aliased_in w text = true) by (unfold aliased_in; by rewrite He0).
  rewrite Hal.
  match goal with |- context [translate_attempts U tr text ?e true retries 0 retries w] =>
    destruct (translate_attempts_all_fail U tr text e true retries retries 0%nat w)
      as (Hr & _ & _ & _ & _ & Hc); [lia | done | done |]
  end.
  cbv zeta in Hr, Hc. split; [exact Hr|]. rewrite Hc. cbn [commit set_cache translations_cache].
  rewrite lookup_insert_eq. eexists. eexists. split_and!.
  - done.
  - apply sighting_role.
  - apply sighting_Found_In.
  - case_bool_decide as Hin; [done|]. rewrite sort_perm. set_solver.
  - rewrite sighting_Translated_Text, He0. done.
Qed.

Lemma failed_translation_marks_existing_record_witness :
  fst (translate_text ascii_tables ni_hao failing true lua_path 100
         (set_cache {[ ni_hao := set_Is_Quotes CHECK_MARK empty_dict ]} empty_world))
  = Return (Some ni_hao).
Proof.
  apply (failed_translation_marks_existing_record ascii_tables ni_hao
           (py "workshop-1_translated_en\scripts\main.lua")
           (set_Is_Quotes CHECK_MARK empty_dict) failing true lua_path 100
           (set_cache {[ ni_hao := set_Is_Quotes CHECK_MARK empty_dict ]} empty_world)).
  - vm_compute. reflexivity.
  - reflexivity.
  - reflexivity.
  - vm_compute. reflexivity.
  - vm_compute. reflexivity.
  - lia.
  - reflexivity.
Defined.

(** ** Double-quoted spans *)

(** X19. A double-quoted span that is translated keeps its double
    quotes: the span is replaced in the buffer by the leading white space
    of the string, the text returned for its core with every double and
    single quote not preceded by a backslash given one, and the trailing
    white space, between double quotes. *)
Theorem double_quoted_span_is_rewritten (U : Unicode) (tr : translator)
    (file_path string t : str) (w : world) :
  needs_translation U string = true ->
  let core := strip (is_space U) string in
  let call := translate_text U core tr false file_path 100 w in
  fst call = Return (Some t) ->
  let leading := take_while (is_space U) string in
  let trailing := take_while_end (is_space U) string in
  let span := [DQUOTE] ++ string ++ [DQUOTE] in
  let rewritten := [DQUOTE] ++ (leading ++ escape_quotes t ++ trailing) ++ [DQUOTE] in
  string = leading ++ core ++ trailing /\
  (forall content,
     translate_quoted U DQUOTE tr file_path string content w
     = (Return (replace span rewritten content), snd call)) /\
  (forall pre post,
     (forall i, (i < length pre)%nat ->
                starts_with span (drop i (pre ++ span ++ post)) = false) ->
     fst (translate_quoted U DQUOTE tr file_path string (pre ++ span ++ post) w)
     = Return (pre ++ rewritten ++ replace span rewritten post)).
Proof.
  intros Hneeds core call Ht leading trailing span rewritten.
  pose proof (proj1 (needs_translation_spec U string) Hneeds) as [_ Hcore].
  fold core in Hcore.
  assert (Hstep : forall content,
    translate_quoted U DQUOTE tr file_path string content w
    = (Return (replace span rewritten content), snd call)).
  { intros content. unfold translate_quoted. rewrite Hneeds.
    rewrite leading_slice, trailing_slice. fold core leading trailing call.
    destruct call as [r w1]. cbn [fst snd] in *. by rewrite Ht. }
  split_and!.
  - by apply strip_decomposition.
  - exact Hstep.
  - intros pre post Hfirst. rewrite Hstep. cbn [fst]. f_equal.
    by apply replace_first_occurrence.
Qed.

Lemma double_quoted_span_is_rewritten_witness :
  fst (translate_quoted ascii_tables DQUOTE (answering (py "it's")) lua_path
         (ni_hao ++ py " ")
         (py "x = " ++ ([DQUOTE] ++ (ni_hao ++ py " ") ++ [DQUOTE]) ++ py ";")
         empty_world)
  = Return (py "x = " ++ ([DQUOTE] ++ py "It\'s " ++ [DQUOTE]) ++ py ";").
Proof.
  pose proof (double_quoted_span_is_rewritten ascii_tables (answering (py "it's"))
                lua_path (ni_hao ++ py " ") (py "It's") empty_world
                ltac:(vm_compute; reflexivity)
                ltac:(vm_compute; reflexivity)) as H.
  cbv zeta in H. destruct H as (_ & _ & H).
  rewrite (H (py "x = ") (py ";")).
  - vm_compute. reflexivity.
  - intros i Hi.
    do 4 (destruct i as [|i]; [vm_compute; reflexivity|]).
    exfalso. vm_compute in Hi. lia.
Defined.

(** ** The mod folder of a path *)

Lemma star_loop_step ma k fuel st :
  star_loop ma k (S fuel) st
  = match ma st (fun st1 =>
             if (length (m_rest st1) <? length (m_rest st))%nat
             then star_loop ma k fuel st1 else None) with
    | Some x => Some x
    | None => k st
    end.
Proof. done. Qed.

Lemma rmatch_class_step p st k c s :
  m_rest st = c :: s ->
  rmatch (Cls p) st k = if p c then k (advance c s st) else None.
Proof. cbn [rmatch]. by intros ->. Qed.

Lemma rmatch_class_end p st k : m_rest st = [] -> rmatch (Cls p) st k = None.
Proof. cbn [rmatch]. by intros ->. Qed.

Lemma rmatch_seq a b st k :
  rmatch (Seq a b) st k = rmatch a st (fun st1 => rmatch b st1 k).
Proof. done. Qed.

Lemma rmatch_grp a st k :
  rmatch (Grp a) st k = rmatch a st (fun st1 => k (capture st st1)).
Proof. done. Qed.

Lemma rmatch_star a st k :
  rmatch (Star a) st k = star_loop (rmatch a) k (length (m_rest st)) st.
Proof. done. Qed.

Lemma advance_shorter c s st :
  m_rest st = c :: s ->
  (length (m_rest (advance c s st)) <? length (m_rest st))%nat = true.
Proof. intros ->. apply Nat.ltb_lt. cbn [advance m_rest length]. lia. Qed.

Lemma star_loop_class_none p k b :
  match b with [] => True | c :: _ => p c = false end ->
  forall a fuel st,
    m_rest st = a ++ b -> forallb p a = true ->
    (forall st1 a2, a2 `suffix_of` a -> m_rest st1 = a2 ++ b -> k st1 = None) ->
    star_loop (rmatch (Cls p)) k fuel st = None.
Proof.
  intros Hb. induction a as [|c a IH]; intros fuel st Hr Ha Hk.
  - assert (Hst : k st = None) by (by apply (Hk st [])).
    destruct fuel as [|fuel]; [done|]. rewrite star_loop_step.
    cbn [app] in Hr. destruct b as [|c b].
    + by rewrite rmatch_class_end.
    + by rewrite (rmatch_class_step p st _ c b Hr), Hb.
  - assert (Hst : k st = None) by (by apply (Hk st (c :: a))).
    destruct fuel as [|fuel]; [done|]. rewrite star_loop_step.
    cbn [app forallb] in *. apply andb_true_iff in Ha as [Hc Ha].
    rewrite (rmatch_class_step p st _ c (a ++ b) Hr), Hc.
    rewrite (advance_shorter c (a ++ b) st Hr).
    rewrite (IH fuel (advance c (a ++ b) st)); [done | done | done |].
    intros st1 a2 Hs. apply Hk. by apply suffix_cons_r.
Qed.

Lemma star_loop_class_found p k b (Q : mstate -> Prop) a2 :
  match b with [] => True | c :: _ => p c = false end ->
  forallb p a2 = true ->
  (forall st1 a2', a2' `suffix_of` a2 -> a2' <> a2 ->
                   m_rest st1 = a2' ++ b -> k st1 = None) ->
  forall a1 fuel st,
    (length a1 <= fuel)%nat ->
    m_rest st = a1 ++ a2 ++ b -> forallb p a1 = true ->
    (forall st1, m_rest st1 = a2 ++ b -> m_grp st1 = m_grp st ->
                 exists x, k st1 = Some x /\ Q x) ->
    exists x, star_loop (rmatch (Cls p)) k fuel st = Some x /\ Q x.
Proof.
  intros Hb Ha2 Hnone. induction a1 as [|c a1 IH]; intros fuel st Hf Hr Ha1 Hk.
  - destruct (Hk st Hr eq_refl) as (x & Hx & HQ). exists x. split; [|done].
    destruct fuel as [|fuel]; [done|]. rewrite star_loop_step.
    cbn [app] in Hr. destruct a2 as [|c a2].
    + cbn [app] in Hr. destruct b as [|c b].
      * by rewrite rmatch_class_end.
      * by rewrite (rmatch_class_step p st _ c b Hr), Hb.
    + cbn [app forallb] in *. apply andb_true_iff in Ha2 as [Hc Ha2].
      rewrite (rmatch_class_step p st _ c (a2 ++ b) Hr), Hc.
      rewrite (advance_shorter c (a2 ++ b) st Hr).
      rewrite (star_loop_class_none p k b Hb a2); [done | done | done |].
      intros st1 a2' Hs. apply Hnone; [by apply suffix_cons_r|].
      intros ->. apply suffix_length in Hs. cbn in Hs. lia.
  - destruct fuel as [|fuel]; [cbn in Hf; lia|]. rewrite star_loop_step.
    cbn [app forallb] in *. apply andb_true_iff in Ha1 as [Hc Ha1].
    rewrite (rmatch_class_step p st _ c (a1 ++ a2 ++ b) Hr), Hc.
    rewrite (advance_shorter c (a1 ++ a2 ++ b) st Hr).
    destruct (IH fuel (advance c (a1 ++ a2 ++ b) st)) as (x & Hx & HQ);
      [cbn in Hf; lia | done | done | |].
    + intros st1 H1 H2. by apply Hk.
    + exists x. by rewrite Hx.
Qed.

Lemma star_loop_class_all p (f : mstate -> mstate) :
  forall s fuel st,
    m_rest st = s -> forallb p s = true -> (length s <= fuel)%nat ->
    exists st1,
      star_loop (rmatch (Cls p)) (fun st => Some (f st)) fuel st = Some (f st1) /\
      m_rest st1 = [] /\ m_grp st1 = m_grp st.
Proof.
  induction s as [|c s IH]; intros fuel st Hr Hs Hf.
  - exists st. split; [|done].
    destruct fuel as [|fuel]; [done|]. rewrite star_loop_step.
    by rewrite rmatch_class_end.
  - destruct fuel as [|fuel]; [cbn in Hf; lia|]. rewrite star_loop_step.
    cbn [forallb] in Hs. apply andb_true_iff in Hs as [Hc Hs].
    rewrite (rmatch_class_step p st _ c s Hr), Hc.
    rewrite (advance_shorter c s st Hr).
    destruct (IH fuel (advance c s st)) as (st1 & H1 & H2 & H3);
      [done | done | cbn in Hf; lia |].
    exists st1. by rewrite H1.
Qed.

Lemma rmatch_Lit_miss T r :
  forall st k, starts_with T (m_rest st) = false -> rmatch (Lit T r) st k = None.
Proof.
  induction T as [|t T IH]; intros st k; [done|].
  change (Lit (t :: T) r) with (Seq (Chr t) (Lit T r)). cbn [rmatch Chr].
  destruct (m_rest st) as [|c s] eqn:Hr; [done|]. cbn [starts_with]. unfold is_chr.
  rewrite (Z.eqb_sym t c). destruct (c =? t); [|done]. cbn [andb]. intros H.
  apply IH. by cbn.
Qed.

Lemma rmatch_Lit_hit T r :
  forall st k b,
    m_rest st = T ++ b ->
    exists st', m_rest st' = b /\ m_grp st' = m_grp st /\
                rmatch (Lit T r) st k = rmatch r st' k.
Proof.
  induction T as [|t T IH]; intros st k b Hr.
  - by exists st.
  - change (Lit (t :: T) r) with (Seq (Chr t) (Lit T r)). cbn [rmatch Chr].
    rewrite Hr. cbn [app]. unfold is_chr. rewrite Z.eqb_refl.
    destruct (IH (advance t (T ++ b) st) k b eq_refl) as (st' & H1 & H2 & H3).
    exists st'. by rewrite H3.
Qed.

(** After a text without backslash, the marker and a backslash can only
    stand where the text is the marker. *)
Lemma marker_alignment T :
  existsb (is_chr BACKSLASH) T = false ->
  forall a more,
    existsb (is_chr BACKSLASH) a = false -> a <> T ->
    starts_with (T ++ [BACKSLASH]) (a ++ BACKSLASH :: more) = false.
Proof.
  induction T as [|t T IH]; intros HT a more Ha Hne.
  - destruct a as [|c a]; [done|]. cbn [app starts_with existsb] in *.
    apply orb_false_iff in Ha as [Hc _]. unfold is_chr in Hc.
    by rewrite (Z.eqb_sym BACKSLASH c), Hc.
  - cbn [existsb] in HT. apply orb_false_iff in HT as [Ht HT].
    destruct a as [|c a]; cbn [app starts_with].
    + unfold is_chr in Ht. by rewrite Ht.
    + cbn [existsb] in Ha. apply orb_false_iff in Ha as [Hc Ha].
      destruct (Z.eqb_spec t c) as [->|]; [|done]. cbn [andb].
      apply IH; [done | done | congruence].
Qed.

Lemma in_segment_no_backslash seg :
  forallb in_segment seg = true -> existsb (is_chr BACKSLASH) seg = false.
Proof.
  induction seg as [|c seg IH]; [done|]. cbn [forallb existsb].
  intros [Hc Hs]%andb_true_iff. rewrite (IH Hs), orb_false_r.
  unfold in_segment, none_of, one_of in Hc. cbn [existsb] in Hc.
  apply negb_true_iff, orb_false_iff in Hc as [_ Hc].
  apply orb_false_iff in Hc as [Hc _]. exact Hc.
Qed.

Lemma in_line_no_newline s :
  existsb (is_chr NEWLINE) s = false -> forallb in_line s = true.
Proof.
  induction s as [|c s IH]; [done|]. cbn [forallb existsb].
  intros [Hc Hs]%orb_false_iff. rewrite (IH Hs), andb_true_r.
  unfold in_line, none_of, one_of. cbn [existsb]. unfold is_chr in Hc.
  by rewrite Hc.
Qed.

Lemma mod_folder_pattern_unfold :
  mod_folder_pattern
  = Seq (Chr BACKSLASH)
      (Grp (Seq (Seq (Cls in_segment) (Star (Cls in_segment)))
                (Lit (translated_en ++ [BACKSLASH]) (Star (Cls in_line))))).
Proof. reflexivity. Qed.

Lemma names_translated_copy_spec seg a1 :
  a1 <> [] -> seg = a1 ++ translated_en -> names_translated_copy seg = true.
Proof.
  intros Hne ->. unfold names_translated_copy. rewrite length_app.
  apply andb_true_iff. split.
  - apply Nat.ltb_lt. destruct a1; [done | cbn; lia].
  - apply bool_decide_eq_true.
    replace (length a1 + length translated_en - length translated_en)%nat
      with (length a1) by lia.
    by rewrite drop_app_length.
Qed.

(** The continuation after the run of the segment: the marker, a
    backslash and the rest of the line. *)
Lemma marker_continuation_none k a more st :
  existsb (is_chr BACKSLASH) a = false -> a <> translated_en ->
  m_rest st = a ++ BACKSLASH :: more ->
  rmatch (Lit (translated_en ++ [BACKSLASH]) (Star (Cls in_line))) st k = None.
Proof.
  intros Ha Hne Hr. apply rmatch_Lit_miss. rewrite Hr.
  by apply marker_alignment.
Qed.

(** At a backslash before a segment that does not name a translated
    copy, the pattern does not match. *)
Lemma match_at_segment_fails prev seg more :
  forallb in_segment seg = true -> names_translated_copy seg = false ->
  match_at mod_folder_pattern prev (BACKSLASH :: seg ++ BACKSLASH :: more) = None.
Proof.
  intros Hseg Hno. rewrite mod_folder_pattern_unfold. unfold match_at.
  cbn [rmatch Chr m_rest]. unfold is_chr at 1. rewrite Z.eqb_refl.
  cbn [advance m_rest]. destruct seg as [|c seg]; [done|].
  cbn [app forallb] in *. apply andb_true_iff in Hseg as [Hc Hseg]. rewrite Hc.
  cbn [advance m_rest].
  rewrite (star_loop_class_none in_segment _ (BACKSLASH :: more) eq_refl seg);
    [done | done | done |].
  intros st1 a2 [a1 Ha] Hr.
  apply (marker_continuation_none _ a2 more); [| |done].
  - apply in_segment_no_backslash. rewrite Ha, forallb_app in Hseg.
    by apply andb_true_iff in Hseg as [_ ?].
  - intros ->. rewrite (names_translated_copy_spec (c :: seg) (c :: a1)) in Hno;
      [done | done | by rewrite Ha].
Qed.

(** At the backslash before a segment that is a name and the marker,
    the pattern matches and group 1 is the path from that segment on. *)
Lemma match_at_segment_found prev name rest :
  name <> [] -> forallb in_segment name = true ->
  existsb (is_chr NEWLINE) rest = false ->
  exists n,
    match_at mod_folder_pattern prev
      (BACKSLASH :: (name ++ translated_en) ++ BACKSLASH :: rest)
    = Some (n, (name ++ translated_en) ++ BACKSLASH :: rest).
Proof.
  intros Hne Hname Hrest. destruct name as [|c name]; [done|].
  cbn [forallb] in Hname. apply andb_true_iff in Hname as [Hc Hname].
  set (whole := ((c :: name) ++ translated_en) ++ BACKSLASH :: rest).
  set (st0 := {| m_prev := prev; m_rest := BACKSLASH :: whole; m_grp := None |}).
  set (st1 := advance BACKSLASH whole st0).
  set (k := fun st2 : mstate =>
         rmatch (Lit (translated_en ++ [BACKSLASH]) (Star (Cls in_line))) st2
           (fun st3 => Some (capture st1 st3))).
  assert (Hend : exists x,
    rmatch mod_folder_pattern st0 Some = Some x /\
    m_rest x = [] /\ m_grp x = Some whole).
  { rewrite mod_folder_pattern_unfold. unfold Chr.
    rewrite rmatch_seq, (rmatch_class_step _ st0 _ BACKSLASH whole eq_refl).
    unfold is_chr at 1. rewrite Z.eqb_refl. fold st1.
    rewrite rmatch_grp, !rmatch_seq.
    rewrite (rmatch_class_step _ st1 _ c
               ((name ++ translated_en) ++ BACKSLASH :: rest) eq_refl), Hc.
    rewrite rmatch_star. fold k.
    apply (star_loop_class_found in_segment k (BACKSLASH :: rest)
             (fun x => m_rest x = [] /\ m_grp x = Some whole)
             translated_en eq_refl eq_refl) with (a1 := name).
    - intros st2 a2' Hs Hne' Hr. subst k. cbn beta.
      apply (marker_continuation_none _ a2' rest); [|done|done].
      destruct Hs as [a1' Ha].
      destruct (existsb (is_chr BACKSLASH) a2') eqn:E; [|done].
      assert (existsb (is_chr BACKSLASH) translated_en = true); [|done].
      rewrite Ha, existsb_app, E. apply orb_true_r.
    - cbn [advance m_rest]. rewrite !length_app. lia.
    - cbn [advance m_rest]. by rewrite <- app_assoc.
    - done.
    - intros st2 Hr2 Hg2. subst k. cbn beta.
      destruct (rmatch_Lit_hit (translated_en ++ [BACKSLASH]) (Star (Cls in_line))
                  st2 (fun st3 => Some (capture st1 st3)) rest)
        as (st3 & Hr3 & Hg3 & ->).
      { rewrite Hr2. by rewrite <- app_assoc. }
      rewrite rmatch_star.
      destruct (star_loop_class_all in_line (capture st1) rest
                  (length (m_rest st3)) st3)
        as (st4 & -> & Hr4 & Hg4);
        [done | by apply in_line_no_newline | by rewrite Hr3 |].
      eexists. split; [done|]. cbn [capture m_rest m_grp]. split; [done|].
      rewrite Hr4. cbn [length]. rewrite Nat.sub_0_r. f_equal.
      subst st1. cbn [advance m_rest]. by apply take_ge. }
  destruct Hend as (x & Hx & Hr & Hg). unfold match_at. fold whole st0.
  rewrite Hx, Hr, Hg. by eexists.
Qed.

Lemma search_past_plain c r pre s (R : option str) :
  existsb (is_chr c) pre = false ->
  (forall prev, search_from (Seq (Chr c) r) prev s = R) ->
  forall prev, search_from (Seq (Chr c) r) prev (pre ++ s) = R.
Proof.
  intros Hpre Hs. induction pre as [|x pre IH]; intros prev; [apply Hs|].
  cbn [existsb] in Hpre. apply orb_false_iff in Hpre as [Hx Hpre].
  cbn [app search_from].
  destruct (match_at _ prev (x :: pre ++ s)) as [[n y]|] eqn:E.
  - destruct (match_at_first_char c r prev (x :: pre ++ s)) as [s' ?];
      [by rewrite E|]. simplify_eq. unfold is_chr in Hx.
    by rewrite Z.eqb_refl in Hx.
  - by apply IH.
Qed.

Lemma search_past_segments segs s (R : option str) :
  forallb (fun seg => forallb in_segment seg && negb (names_translated_copy seg))
          segs = true ->
  (forall prev, search_from mod_folder_pattern prev (BACKSLASH :: s) = R) ->
  forall prev,
    search_from mod_folder_pattern prev
      (concat (map (cons BACKSLASH) segs) ++ BACKSLASH :: s) = R.
Proof.
  intros Hsegs Hs. induction segs as [|seg segs IH]; intros prev; [apply Hs|].
  cbn [forallb] in Hsegs. apply andb_true_iff in Hsegs as [Hseg Hsegs].
  apply andb_true_iff in Hseg as [Hin Hno]. apply negb_true_iff in Hno.
  specialize (IH Hsegs).
  cbn [map concat app]. rewrite <- app_assoc. cbn [search_from].
  destruct (concat (map (cons BACKSLASH) segs) ++ BACKSLASH :: s) as [|b more] eqn:E.
  { by destruct (concat (map (cons BACKSLASH) segs)). }
  assert (Hb : b = BACKSLASH).
  { destruct segs as [|seg' segs']; cbn in E; by simplify_eq. }
  subst b. rewrite match_at_segment_fails by done.
  rewrite mod_folder_pattern_unfold in *.
  apply search_past_plain; [by apply in_segment_no_backslash | exact IH].
Qed.

Lemma relative_path_of_copy name rest :
  forallb in_segment name = true ->
  relative_path_of ((name ++ translated_en) ++ BACKSLASH :: rest)
  = name ++ BACKSLASH :: relative_path_of rest.
Proof.
  intros Hname. unfold relative_path_of.
  replace ((name ++ translated_en) ++ BACKSLASH :: rest)
    with (name ++ (translated_en ++ [BACKSLASH]) ++ rest)
    by (by rewrite <- !app_assoc).
  rewrite replace_first_occurrence; [done | done |].
  intros i Hi. rewrite drop_app_le by lia.
  replace (drop i name ++ (translated_en ++ [BACKSLASH]) ++ rest)
    with ((drop i name ++ translated_en) ++ BACKSLASH :: rest)
    by (by rewrite <- !app_assoc).
  apply marker_alignment; [done | |].
  - rewrite existsb_app. apply orb_false_iff. split; [|done].
    apply in_segment_no_backslash.
    rewrite <- (take_drop i name), forallb_app in Hname.
    by apply andb_true_iff in Hname as [_ ?].
  - intros E. apply (f_equal length) in E. rewrite length_app, length_drop in E.
    lia.
Qed.

(** X20. The mod folder of a file of a translated copy.  In a path whose
    first segment with a name followed by the marker [_translated_en] is
    [name ++ _translated_en], the segments before it holding no line
    break, and with no line break after it, the path relative to the mod
    folder is found: it is [name], a backslash, and what follows the folder
    with every later [_translated_en\] turned into a backslash.  Nothing is
    logged. *)
Theorem mod_folder_is_found (first : str) (segs : list str) (name rest : str)
    (w : world) :
  existsb (is_chr BACKSLASH) first = false ->
  forallb (fun seg => forallb in_segment seg && negb (names_translated_copy seg))
          segs = true ->
  name <> [] ->
  forallb in_segment name = true ->
  existsb (is_chr NEWLINE) rest = false ->
  get_path_start_from_mod_folder
    (path_of first segs ++ BACKSLASH :: (name ++ translated_en) ++ BACKSLASH :: rest)
    w
  = (Return (name ++ BACKSLASH :: relative_path_of rest), w).
Proof.
  intros Hfirst Hsegs Hne Hname Hrest. unfold get_path_start_from_mod_folder.
  assert (Hs : re_search mod_folder_pattern
                 (path_of first segs
                  ++ BACKSLASH :: (name ++ translated_en) ++ BACKSLASH :: rest)
               = Some ((name ++ translated_en) ++ BACKSLASH :: rest)).
  { unfold re_search, path_of. rewrite <- app_assoc.
    rewrite mod_folder_pattern_unfold.
    apply search_past_plain; [done|]. rewrite <- mod_folder_pattern_unfold.
    apply search_past_segments; [done|]. intros prev. cbn [search_from].
    by destruct (match_at_segment_found prev name rest Hne Hname Hrest) as [n ->]. }
  rewrite Hs. fold (relative_path_of ((name ++ translated_en) ++ BACKSLASH :: rest)).
  by rewrite relative_path_of_copy.
Qed.

Lemma mod_folder_is_found_witness :
  get_path_start_from_mod_folder lua_path empty_world
  = (Return (py "workshop-1\scripts\main.lua"), empty_world).
Proof.
  apply (mod_folder_is_found (py "D:") [py "mods"] (py "workshop-1")
           (py "scripts\main.lua") empty_world).
  - vm_compute. reflexivity.
  - vm_compute. reflexivity.
  - vm_compute. discriminate.
  - vm_compute. reflexivity.
  - vm_compute. reflexivity.
Defined.
